(** * Shared-expense ledger: the group, expense and mark-paid routes

    A shallow embedding of the Mongoose schemas (models) and of the Express
    routes of [api/index.js] that create groups, add expenses and mark an
    expense as paid, and a model of the debt-simplification algorithm of the
    ledger specification, followed by the properties of the specification
    that can be stated over them.

    Conventions of the embedding:
    - an [ObjectId] is a natural number, a [Date] a number of milliseconds;
    - a JavaScript [Number] carried by a JSON body is a rational ([Q]): every
      finite double is one, and the routes only store amounts, they never
      compute with them;
    - a collection is a finite map from [_id] to document;
    - a field of a JSON body that may be absent is an [option];
    - a route takes the store and returns the new store with its outcome:
      either a response (status, JSON body) or the exception with which the
      promise of the [async] handler rejects. *)

From stdpp Require Import base option list gmap strings relations.
From Stdlib Require Import QArith Qabs Lqa Lia.

#[local] Open Scope string_scope.
#[local] Close Scope Q_scope.

Abbreviation ObjectId := nat (only parsing).
Abbreviation Date := nat (only parsing).

(** ** Schemas *)

Module FriendRequest.
Record t := mk { from : ObjectId; date : Date }.
End FriendRequest.

Module User.
Record t := mk {
  name : string;
  phone : string;
  upi_id : string;
  password : string;
  friends : list ObjectId;
  friendRequests : list FriendRequest.t;
}.
End User.

Module Group.
(** [name] is required; [timestamps: true] adds [createdAt], [updatedAt]. *)
Record t := mk {
  name : string;
  createdBy : ObjectId;
  members : list ObjectId;
  expenses : list ObjectId;
  createdAt : Date;
  updatedAt : Date;
}.
End Group.

Module Split.
(** An element of [expenseSchema.splits]: no path is required, [paid]
    defaults to [false]. The [_id] Mongoose gives a subdocument is left out:
    no route reads it. *)
Record t := mk {
  userId : option ObjectId;
  shareAmount : option Q;
  paid : bool;
}.
End Split.

Module Expense.
(** [label] and [amount] are required; [paid] defaults to [false];
    [timestamps: true] adds [createdAt], [updatedAt]. *)
Record t := mk {
  label : string;
  amount : Q;
  date : Date;
  group : ObjectId;
  splits : list Split.t;
  paid : bool;
  createdAt : Date;
  updatedAt : Date;
}.
End Expense.

(** ** The store *)

Record DB := mkDB {
  users : gmap nat User.t;
  groups : gmap nat Group.t;
  expenses : gmap nat Expense.t;
}.

(** What the run time supplies to one request: the clock ([new Date()],
    [Date.now]) and the [_id] the driver generates for a created document. *)
Record Env := mkEnv { now : Date; newId : ObjectId }.

(** ** Outcomes *)

Inductive Exn :=
| ValidationError (paths : list string)   (* Mongoose: the failing paths *)
| TypeError (msg : string)
| DuplicateKeyError.

Inductive Body :=
| JError (error : string)
| JMessage (message : string)
| JGroup (_id : ObjectId) (g : Group.t)
| JExpense (_id : ObjectId) (e : Expense.t).

Inductive Outcome :=
| Respond (status : nat) (body : Body)
| Reject (e : Exn).

(** ** Request bodies *)

Module SplitInput.
(** An element of [req.body.splits]; the route documents the shape
    [{ userId, shareAmount }], the schema also keeps a [paid] it is given. *)
Record t := mk {
  userId : option ObjectId;
  shareAmount : option Q;
  paid : option bool;
}.
End SplitInput.

(** A truthy [date] of a body: a value that stands for a date (a date string,
    a number of milliseconds), or one that the [Date] path cannot cast. *)
Inductive DateInput :=
| Castable (d : Date)
| Uncastable.

Module ExpenseBody.
(** [date] is [None] for an absent (or falsy) field: the route then takes
    [new Date()]. *)
Record t := mk {
  label : option string;
  amount : option Q;
  date : option DateInput;
  splits : option (list SplitInput.t);
}.
End ExpenseBody.

Module GroupBody.
Record t := mk {
  name : option string;
  members : option (list ObjectId);
}.
End GroupBody.

(** ** Mongoose: validation, defaults, create and save *)

(** The [required] validator of a [String] path fails on a missing value and
    on the empty string. *)
Definition string_required (v : option string) : bool :=
  match v with
  | Some s => negb (String.eqb s "")
  | None => false
  end.

(** The [required] validator of a [Number] path only fails on a missing
    value. *)
Definition number_required (v : option Q) : bool :=
  match v with
  | Some _ => true
  | None => false
  end.

(** A subdocument of [splits] as cast by the schema: [paid] takes its default
    only when the input has none. *)
Definition cast_split (s : SplitInput.t) : Split.t :=
  Split.mk (SplitInput.userId s) (SplitInput.shareAmount s)
           (default false (SplitInput.paid s)).

Definition insert_group (id : ObjectId) (g : Group.t) (db : DB) : DB :=
  mkDB (users db) (<[id := g]> (groups db)) (expenses db).

Definition insert_expense (id : ObjectId) (e : Expense.t) (db : DB) : DB :=
  mkDB (users db) (groups db) (<[id := e]> (expenses db)).

(** [Group.create({ name, createdBy, members })]. *)
Definition Group_create (name : option string) (createdBy : ObjectId)
    (members : list ObjectId) (env : Env) (db : DB)
    : Exn + (DB * ObjectId * Group.t) :=
  match name with
  | Some n =>
      if string_required name then
        match groups db !! newId env with
        | Some _ => inl DuplicateKeyError
        | None =>
            let g := Group.mk n createdBy members [] (now env) (now env) in
            inr (insert_group (newId env) g db, newId env, g)
        end
      else inl (ValidationError ["name"])
  | None => inl (ValidationError ["name"])
  end.

(** The cast of the [Date] path: a date is at most 8.64e15 milliseconds from
    the epoch; a value that stands for no date, or for one out of that range,
    has no cast. *)
Definition cast_date (v : DateInput) : option Date :=
  match v with
  | Castable d => if (N.of_nat d <=? 8640000000000000)%N then Some d else None
  | Uncastable => None
  end.

(** [date || new Date()] as the [Date] path casts it: [None] when the cast
    fails. *)
Definition date_or_now (v : option DateInput) (env : Env) : option Date :=
  match v with
  | Some v => cast_date v
  | None => Some (now env)
  end.

(** The paths of an expense that fail validation: the required paths that
    are missing and the path whose cast failed. *)
Definition Expense_failing (label : option string) (amount : option Q)
    (date : option Date) : list string :=
  ((if string_required label then [] else ["label"]) ++
   (if number_required amount then [] else ["amount"]) ++
   (if date is Some _ then [] else ["date"]))%list.

(** [Expense.create({ label, amount, date, group, splits, paid })]. *)
Definition Expense_create (label : option string) (amount : option Q)
    (date : option Date) (group : ObjectId) (splits : option (list SplitInput.t))
    (paid : bool) (env : Env) (db : DB)
    : Exn + (DB * ObjectId * Expense.t) :=
  let failing := Expense_failing label amount date in
  match label, amount, date, failing with
  | Some l, Some a, Some d, [] =>
      match expenses db !! newId env with
      | Some _ => inl DuplicateKeyError
      | None =>
          let e := Expense.mk l a d group
                     (cast_split <$> default [] splits) paid
                     (now env) (now env) in
          inr (insert_expense (newId env) e db, newId env, e)
      end
  | _, _, _, _ => inl (ValidationError failing)
  end.

(** [group.expenses.push(id); await group.save()]: the paths loaded from the
    store are not validated again, the write refreshes [updatedAt]. *)
Definition Group_push_expense (id : ObjectId) (g : Group.t) (env : Env) : Group.t :=
  Group.mk (Group.name g) (Group.createdBy g) (Group.members g)
           (Group.expenses g ++ [id]) (Group.createdAt g) (now env).

(** [expense.paid = true; await expense.save()]: nothing is written when the
    assignment changes nothing. *)
Definition Expense_set_paid (e : Expense.t) (env : Env) : Expense.t :=
  if Expense.paid e then e
  else Expense.mk (Expense.label e) (Expense.amount e) (Expense.date e)
         (Expense.group e) (Expense.splits e) true
         (Expense.createdAt e) (now env).

(** ** The JWT middleware *)

(** [jwt.verify] is external: its verdict on the [Authorization] header is
    part of the request. *)
Inductive Authorization :=
| NoToken
| InvalidToken
| ValidToken (id : ObjectId).

(** [auth]: a response of its own, or [req.user], which is [null] when the
    token names no stored user. *)
Definition auth (h : Authorization) (db : DB) : Outcome + option (ObjectId * User.t) :=
  match h with
  | NoToken => inl (Respond 401 (JError "No token"))
  | InvalidToken => inl (Respond 401 (JError "Invalid token"))
  | ValidToken id => inr (pair id <$> users db !! id)
  end.

(** ** Routes *)

(** [POST /api/group/create] *)
Definition group_create (h : Authorization) (body : GroupBody.t)
    (env : Env) (db : DB) : DB * Outcome :=
  match auth h db with
  | inl r => (db, r)
  | inr None => (db, Reject (TypeError "Cannot read properties of null"))
  | inr (Some (uid, _)) =>
      match GroupBody.members body with
      | None => (db, Reject (TypeError "members is not iterable"))
      | Some members =>
          match Group_create (GroupBody.name body) uid (uid :: members) env db with
          | inl e => (db, Reject e)
          | inr (db', id, g) => (db', Respond 200 (JGroup id g))
          end
      end
  end.

(** [POST /api/group/:groupId/expense] *)
Definition group_expense (h : Authorization) (groupId : ObjectId)
    (body : ExpenseBody.t) (env : Env) (db : DB) : DB * Outcome :=
  match auth h db with
  | inl r => (db, r)
  | inr _ =>
      match groups db !! groupId with
      | None => (db, Respond 404 (JError "Group not found"))
      | Some group =>
          match Expense_create (ExpenseBody.label body) (ExpenseBody.amount body)
                  (date_or_now (ExpenseBody.date body) env) groupId
                  (ExpenseBody.splits body) false env db with
          | inl e => (db, Reject e)
          | inr (db', id, expense) =>
              (insert_group groupId (Group_push_expense id group env) db',
               Respond 200 (JExpense id expense))
          end
      end
  end.

(** [POST /api/expense/:id/markPaid] *)
Definition expense_markPaid (h : Authorization) (id : ObjectId)
    (env : Env) (db : DB) : DB * Outcome :=
  match auth h db with
  | inl r => (db, r)
  | inr _ =>
      match expenses db !! id with
      | None => (db, Respond 404 (JError "Expense not found"))
      | Some expense =>
          (insert_expense id (Expense_set_paid expense env) db,
           Respond 200 (JMessage "Expense marked as paid"))
      end
  end.

(** ** The service as a transition system *)

Inductive Request :=
| PostGroupCreate (h : Authorization) (body : GroupBody.t)
| PostGroupExpense (h : Authorization) (groupId : ObjectId) (body : ExpenseBody.t)
| PostExpenseMarkPaid (h : Authorization) (id : ObjectId).

Definition handle (r : Request) (env : Env) (db : DB) : DB * Outcome :=
  match r with
  | PostGroupCreate h body => group_create h body env db
  | PostGroupExpense h groupId body => group_expense h groupId body env db
  | PostExpenseMarkPaid h id => expense_markPaid h id env db
  end.

(** One request served. The signup and friend routes read and write the
    [User] collection only ([User.create], [friend.save()],
    [req.user.save()]): they are covered by an arbitrary change of that
    collection. The login, dashboard and root routes write nothing. *)
Inductive step : DB -> DB -> Prop :=
| step_route r env db : step db (handle r env db).1
| step_user_routes us db : step db (mkDB us (groups db) (expenses db)).

Definition reachable_from : DB -> DB -> Prop := rtc step.

(** What no route changes in a stored group. *)
Definition same_membership (g g' : Group.t) : Prop :=
  Group.createdBy g' = Group.createdBy g /\ Group.members g' = Group.members g.

(** ** A small store to run the routes on *)

Module Scenario.
Definition alice : ObjectId := 1.
Definition bob : ObjectId := 2.
Definition carol : ObjectId := 3.

Definition user (n : string) : User.t := User.mk n n "upi" "hash" [] [].

Definition trip : Group.t := Group.mk "Trip" alice [alice; bob] [] 1000 1000.

Definition db0 : DB :=
  mkDB (<[alice := user "alice"]> (<[bob := user "bob"]> (<[carol := user "carol"]> ∅)))
       (<[10 := trip]> ∅)
       ∅.

Definition env1 : Env := mkEnv 2000 20.
Definition env2 : Env := mkEnv 3000 21.
Definition env3 : Env := mkEnv 4000 22.

Definition share (u : ObjectId) (q : Q) : SplitInput.t :=
  SplitInput.mk (Some u) (Some q) None.
End Scenario.

(** ** Vocabulary of the ledger specification

    The conditions the specification puts on requests and documents, stated
    over the data of the routes. *)

(** The rounding tolerance on sums of shares, 0.01. *)
Definition tolerance : Q := 1 # 100.

(** An allocation is an element of [splits]; an absent share counts as 0. *)
Definition share_sum (allocs : list SplitInput.t) : Q :=
  foldr (fun s acc => (default 0 (SplitInput.shareAmount s) + acc)%Q) 0%Q allocs.

Definition sum_deviates (total : Q) (allocs : list SplitInput.t) : Prop :=
  (tolerance < Qabs (share_sum allocs - total))%Q.

Definition negative_share (allocs : list SplitInput.t) : Prop :=
  Exists (fun s => exists q, SplitInput.shareAmount s = Some q /\ (q < 0)%Q) allocs.

Definition duplicate_member (allocs : list SplitInput.t) : Prop :=
  ~ NoDup (SplitInput.userId <$> allocs).

Definition invalid_allocations (total : Q) (allocs : list SplitInput.t) : Prop :=
  allocs = [] \/ duplicate_member allocs \/ negative_share allocs \/
  sum_deviates total allocs.

(** The request failed with a validation error and the store is as before. *)
Definition validation_failure (db : DB) (r : DB * Outcome) : Prop :=
  exists paths, r = (db, Reject (ValidationError paths)).

(** The error kinds the routes have no exception for are told by their status
    class: forbidden is 403, conflict is 409. *)
Definition forbidden (o : Outcome) : Prop := exists b, o = Respond 403 b.
Definition conflict (o : Outcome) : Prop := exists b, o = Respond 409 b.

(** The split-validation clause: invalid allocations are refused. *)
Definition refuses_invalid_allocations (h : Authorization) (groupId : ObjectId)
    (body : ExpenseBody.t) (env : Env) (db : DB) : Prop :=
  forall total,
    ExpenseBody.amount body = Some total ->
    invalid_allocations total (default [] (ExpenseBody.splits body)) ->
    validation_failure db (group_expense h groupId body env db).

(** The membership clause: a requester outside the group is refused. *)
Definition refuses_non_members (h : Authorization) (groupId : ObjectId)
    (body : ExpenseBody.t) (env : Env) (db : DB) : Prop :=
  forall uid group,
    h = ValidToken uid -> groups db !! groupId = Some group ->
    uid ∉ Group.members group ->
    forbidden (group_expense h groupId body env db).2.

(** The label and amount clause: an empty label or an amount that is not
    strictly positive is refused. *)
Definition refuses_bad_label_or_amount (h : Authorization) (groupId : ObjectId)
    (body : ExpenseBody.t) (env : Env) (db : DB) : Prop :=
  (ExpenseBody.label body = Some "" \/
   exists a, ExpenseBody.amount body = Some a /\ (a <= 0)%Q) ->
  validation_failure db (group_expense h groupId body env db).

(** The creation clause: a created expense has all its flags down. *)
Definition all_unpaid (e : Expense.t) : Prop :=
  Expense.paid e = false /\
  Forall (fun s => Split.paid s = false) (Expense.splits e).

Definition creates_all_unpaid (h : Authorization) (groupId : ObjectId)
    (body : ExpenseBody.t) (env : Env) (db : DB) : Prop :=
  forall db' id e,
    group_expense h groupId body env db = (db', Respond 200 (JExpense id e)) ->
    all_unpaid e.

(** The derived-flag invariant: an expense is paid exactly when all its splits
    are. *)
Definition paid_is_derived (e : Expense.t) : Prop :=
  Expense.paid e = true <->
  Forall (fun s => Split.paid s = true) (Expense.splits e).

Definition paid_derived_everywhere (db : DB) : Prop :=
  forall id e, expenses db !! id = Some e -> paid_is_derived e.

(** The exactly-once clause: marking what is already paid is a conflict. *)
Definition refuses_second_marking (h : Authorization) (id : ObjectId)
    (env : Env) (db : DB) : Prop :=
  forall e, expenses db !! id = Some e -> Expense.paid e = true ->
    conflict (expense_markPaid h id env db).2.

(** The frame clause of marking: of the stored expense only the top-level
    paid flag changes. *)
Definition marking_changes_only_paid (h : Authorization) (id : ObjectId)
    (env : Env) (db : DB) : Prop :=
  forall e db' b,
    expenses db !! id = Some e ->
    expense_markPaid h id env db = (db', Respond 200 b) ->
    expenses db' !! id
    = Some (Expense.mk (Expense.label e) (Expense.amount e) (Expense.date e)
              (Expense.group e) (Expense.splits e) true
              (Expense.createdAt e) (Expense.updatedAt e)).

Module Dinner.
Import Scenario.

(** Alice records a dinner of 90 shared three ways, then bob marks the
    expense as paid, twice. *)
Definition body : ExpenseBody.t :=
  ExpenseBody.mk (Some "Dinner") (Some (90 # 1)%Q) None
    (Some [share alice (30 # 1)%Q; share bob (30 # 1)%Q; share carol (30 # 1)%Q]).

Definition db1 : DB := (group_expense (ValidToken alice) 10 body env1 db0).1.
Definition db2 : DB := (expense_markPaid (ValidToken bob) 20 env2 db1).1.
End Dinner.

(** ** Settlement engine *)

Module Settlement.
#[local] Open Scope Q_scope.

(** No source file implements the settlement engine: the definitions of this
    module are modelled from section 4.4 of the specification. A balance
    entry is a pair of a member id and a signed amount. *)

Record Transfer := mkTransfer { from : nat; to : nat; amount : Q }.

Inductive Result :=
| Transfers (ts : list Transfer)
| Failure (e : Exn)
| OutOfFuel.

Definition sum_over {A} (f : A -> Q) (l : list A) : Q :=
  foldr (fun x acc => f x + acc) 0 l.

Definition total (l : list (nat * Q)) : Q := sum_over snd l.

(** Modelled from the spec: the tie-break of [simplifyDebts]. Largest balance
    first, lower member id on equal balances. *)
Definition before_creditor (x y : nat * Q) : bool :=
  if Qle_bool x.2 y.2 then Qle_bool y.2 x.2 && (x.1 <=? y.1)%nat else true.

(** Modelled from the spec: the tie-break of [simplifyDebts]. Most negative
    balance first, lower member id on equal balances. *)
Definition before_debtor (x y : nat * Q) : bool :=
  if Qle_bool y.2 x.2 then Qle_bool x.2 y.2 && (x.1 <=? y.1)%nat else true.

Fixpoint best (before : nat * Q -> nat * Q -> bool) (l : list (nat * Q))
    : option (nat * Q) :=
  match l with
  | [] => None
  | x :: l' =>
      match best before l' with
      | None => Some x
      | Some y => Some (if before x y then x else y)
      end
  end.

Definition is_creditor (tol : Q) (e : nat * Q) : bool := negb (Qle_bool e.2 tol).
Definition is_debtor (tol : Q) (e : nat * Q) : bool := negb (Qle_bool (- tol) e.2).

(** Give member [i] the reduced balance [q], or drop the member when [q]
    is no longer beyond the tolerance. *)
Definition reduce (live : nat * Q -> bool) (i : nat) (q : Q) (l : list (nat * Q))
    : list (nat * Q) :=
  if live (i, q)
  then (fun e => if (e.1 =? i)%nat then (i, q) else e) <$> l
  else List.filter (fun e => negb (e.1 =? i)%nat) l.

(** Modelled from the spec: one round of [simplifyDebts], the matching of the
    largest creditor against the largest debtor. *)
Definition settle_round (tol : Q) (cs ds : list (nat * Q))
    : option (Transfer * list (nat * Q) * list (nat * Q)) :=
  match best before_creditor cs, best before_debtor ds with
  | Some c, Some d =>
      let amt := if Qle_bool c.2 (- d.2) then c.2 else - d.2 in
      Some (mkTransfer d.1 c.1 amt,
            reduce (is_creditor tol) c.1 (c.2 - amt) cs,
            reduce (is_debtor tol) d.1 (d.2 + amt) ds)
  | _, _ => None
  end.

(** Modelled from the spec: the loop of [simplifyDebts], repeated until no
    creditors or no debtors remain. *)
Fixpoint settle (fuel : nat) (tol : Q) (cs ds : list (nat * Q))
    : option (list Transfer) :=
  match settle_round tol cs ds with
  | None => Some []
  | Some (t, cs', ds') =>
      match fuel with
      | O => None
      | S k => cons t <$> settle k tol cs' ds'
      end
  end.

(** The state of the loop: the members on the two sides are distinct, and
    every balance on a side is beyond the tolerance. *)
Definition well_formed (tol : Q) (cs ds : list (nat * Q)) : Prop :=
  NoDup (cs.*1 ++ ds.*1) /\
  (forall j a, (j, a) ∈ cs -> tol < a) /\
  (forall j a, (j, a) ∈ ds -> a < - tol).

(** Modelled from the spec: [simplifyDebts] on the entries of the mapping,
    listed in any order. *)
Definition simplify_entries (tol : Q) (l : list (nat * Q)) : Result :=
  if Qle_bool (Qabs (total l)) tol then
    let cs := List.filter (is_creditor tol) l in
    let ds := List.filter (is_debtor tol) l in
    match settle (length cs + length ds) tol cs ds with
    | Some ts => Transfers ts
    | None => OutOfFuel
    end
  else Failure (ValidationError ["balances"]).

(** Modelled from the spec: [simplifyDebts] is specified (section 4.4) but
    no source file implements it. The model follows the specified algorithm:
    refuse balances that do not sum to zero within the tolerance; split the
    members into creditors (balance above the tolerance) and debtors
    (balance below its opposite); repeatedly match the largest creditor with
    the largest debtor, lower id first on ties, transfer the smaller of the
    two amounts, reduce both and drop a party whose balance is within the
    tolerance of zero; stop when one side is empty. *)
Definition simplifyDebts (tol : Q) (balances : gmap nat Q) : Result :=
  simplify_entries tol (map_to_list balances).

(** Applying a transfer: the payer's balance rises by the amount, the
    receiver's falls by it. *)
Definition apply_transfer (t : Transfer) (balances : gmap nat Q) : gmap nat Q :=
  alter (fun b => b + amount t) (from t) (alter (fun b => b - amount t) (to t) balances).

Definition apply_transfers (ts : list Transfer) (balances : gmap nat Q) : gmap nat Q :=
  foldl (fun m t => apply_transfer t m) balances ts.

(** What one transfer, and a sequence of them, adds to the balance of
    member [i]. *)
Definition flow (t : Transfer) (i : nat) : Q :=
  (if (from t =? i)%nat then amount t else 0)
  - (if (to t =? i)%nat then amount t else 0).

Definition net (ts : list Transfer) (i : nat) : Q :=
  sum_over (fun t => flow t i) ts.

Definition transferred (ts : list Transfer) : Q := sum_over amount ts.

(** The sum of the positive balances. *)
Definition positive_part (e : nat * Q) : Q := if Qle_bool e.2 0 then 0 else e.2.

Definition owed (l : list (nat * Q)) : Q := sum_over positive_part l.

(** [n - 1] times the tolerance, for a mapping over [n] members. *)
Definition slack (tol : Q) (n : nat) : Q := inject_Z (Z.of_nat (Nat.pred n)) * tol.

(** The guarantees as the specification words them: the transfers settle
    every balance to zero within the tolerance, and move the sum of the
    positive balances within the tolerance. *)
Definition settles_within (tol : Q) (balances : gmap nat Q) (ts : list Transfer) : Prop :=
  forall i b, apply_transfers ts balances !! i = Some b -> Qabs b <= tol.

Definition moves_what_is_owed (tol : Q) (balances : gmap nat Q) (ts : list Transfer) : Prop :=
  Qabs (transferred ts - owed (map_to_list balances)) <= tol.

Definition guarantees (tol : Q) (balances : gmap nat Q) : Prop :=
  total (map_to_list balances) == 0 ->
  exists ts, simplifyDebts tol balances = Transfers ts /\
    settles_within tol balances ts /\
    (length ts <= Nat.pred (size balances))%nat /\
    moves_what_is_owed tol balances ts.

(** The balances of the specification's scenario: A advanced 90 for three
    equal shares. *)
Definition scenario : gmap nat Q :=
  <[1%nat := 60 # 1]> (<[2%nat := -30 # 1]> (<[3%nat := -30 # 1]> ∅)).

(** One creditor of 0.03 against three members who owe 0.01 each. *)
Definition crumbs : gmap nat Q :=
  <[1%nat := 3 # 100]> (<[2%nat := -1 # 100]>
    (<[3%nat := -1 # 100]> (<[4%nat := -1 # 100]> ∅))).
End Settlement.

(** ** Sign-up, login and the dashboard *)

Module SignupBody.
Record t := mk {
  name : option string;
  phone : option string;
  upi_id : option string;
  password : option string;
}.
End SignupBody.

Module LoginBody.
(** A login body carries both of its fields. *)
Record t := mk { identifier : string; password : string }.
End LoginBody.

Module Token.
(** What a token of this service is signed over: the payload [{ id }] and the
    [iat] claim, the time of signing in seconds. *)
Record t := mk { id : ObjectId; iat : nat }.
End Token.

(** [jwt.sign({ id }, secret)]: the secret being configured, it does not
    throw, and the token is determined by its payload and the second in which
    it is signed. *)
Definition jwt_sign (id : ObjectId) (env : Env) : Token.t :=
  Token.mk id (now env / 1000).

(** The verdict of [jwt.verify] on a request that carries the token. *)
Definition bearer (t : Token.t) : Authorization := ValidToken (Token.id t).

(** What the sign-up and login routes answer: an error, the failure caught by
    the [try] of the sign-up route, or [{ token, user }]. *)
Inductive UserBody :=
| UError (error : string)
| UFailure (error : string) (details : Exn)
| USession (token : Token.t) (_id : ObjectId) (user : User.t).

Definition insert_user (id : ObjectId) (u : User.t) (db : DB) : DB :=
  mkDB (<[id := u]> (users db)) (groups db) (expenses db).

(** [!v] is false: the field is present and not the empty string. *)
Definition truthy (v : option string) : option string :=
  match v with
  | Some s => if String.eqb s "" then None else Some s
  | None => None
  end.

(** [User.findOne(filter)]: a stored user that passes the filter, none when
    there is none. The collection has no order here: which user comes first
    when several pass the filter is not modelled. *)
Definition User_findOne (p : User.t -> bool) (db : DB) : option (ObjectId * User.t) :=
  head (List.filter (fun x => p x.2) (map_to_list (users db))).

(** [{ $or: [{ name }, { phone }] }] *)
Definition same_name_or_phone (name phone : string) (u : User.t) : bool :=
  String.eqb (User.name u) name || String.eqb (User.phone u) phone.

(** [{ $or: [{ name: identifier }, { phone: identifier }] }] *)
Definition identified_by (identifier : string) (u : User.t) : bool :=
  same_name_or_phone identifier identifier u.

(** [User.create({ name, phone, upi_id, password })]: the four paths are
    required, [name] and [phone] are unique, [friends] and [friendRequests]
    start empty. The timestamps of user documents are left out: no route
    reads them. *)
Definition User_create (name phone upi_id password : string)
    (env : Env) (db : DB) : Exn + (DB * ObjectId * User.t) :=
  let missing :=
    ((if string_required (Some name) then [] else ["name"]) ++
     (if string_required (Some phone) then [] else ["phone"]) ++
     (if string_required (Some upi_id) then [] else ["upi_id"]) ++
     (if string_required (Some password) then [] else ["password"]))%list in
  match missing with
  | _ :: _ => inl (ValidationError missing)
  | [] =>
      match users db !! newId env, User_findOne (same_name_or_phone name phone) db with
      | None, None =>
          let u := User.mk name phone upi_id password [] [] in
          inr (insert_user (newId env) u db, newId env, u)
      | _, _ => inl DuplicateKeyError
      end
  end.

Section Accounts.
(** [bcrypt.hash(password, 10)] draws a salt: the salt is an input of the
    request. [bcrypt.compare(password, hash)]. *)
Variable bcrypt_hash : string -> string -> string.
Variable bcrypt_compare : string -> string -> bool.

(** [POST /api/signup] *)
Definition signup (body : SignupBody.t) (salt : string) (env : Env) (db : DB)
    : DB * (nat * UserBody) :=
  match truthy (SignupBody.name body), truthy (SignupBody.phone body),
        truthy (SignupBody.upi_id body), truthy (SignupBody.password body) with
  | Some name, Some phone, Some upi_id, Some password =>
      match User_findOne (same_name_or_phone name phone) db with
      | Some _ => (db, (400, UError "User exists"))
      | None =>
          match User_create name phone upi_id (bcrypt_hash password salt) env db with
          | inl e => (db, (500, UFailure "Signup failed" e))
          | inr (db', id, user) => (db', (200, USession (jwt_sign id env) id user))
          end
      end
  | _, _, _, _ => (db, (400, UError "All fields required"))
  end.

(** [POST /api/login] *)
Definition login (body : LoginBody.t) (env : Env) (db : DB) : nat * UserBody :=
  match User_findOne (identified_by (LoginBody.identifier body)) db with
  | None => (400, UError "User not found")
  | Some (id, user) =>
      if bcrypt_compare (LoginBody.password body) (User.password user)
      then (200, USession (jwt_sign id env) id user)
      else (400, UError "Wrong password")
  end.
End Accounts.

Module PopulatedMember.
(** [populate("members", "name phone")] *)
Record t := mk { _id : ObjectId; name : string; phone : string }.
End PopulatedMember.

Module PopulatedGroup.
Record t := mk {
  name : string;
  createdBy : ObjectId;
  members : list PopulatedMember.t;
  expenses : list (ObjectId * Expense.t);
  createdAt : Date;
  updatedAt : Date;
}.
End PopulatedGroup.

(** Populating an array of references keeps, in order, the documents that
    are found. *)
Definition populate_members (db : DB) (ids : list ObjectId) : list PopulatedMember.t :=
  omap (fun id => (fun u => PopulatedMember.mk id (User.name u) (User.phone u))
                    <$> users db !! id) ids.

Definition populate_expenses (db : DB) (ids : list ObjectId)
    : list (ObjectId * Expense.t) :=
  omap (fun id => pair id <$> expenses db !! id) ids.

Definition populate (db : DB) (g : Group.t) : PopulatedGroup.t :=
  PopulatedGroup.mk (Group.name g) (Group.createdBy g)
    (populate_members db (Group.members g))
    (populate_expenses db (Group.expenses g))
    (Group.createdAt g) (Group.updatedAt g).

(** [GET /api/dashboard]: [{ user, groups }], the groups found by
    [Group.find({ members: req.user._id })] given by [_id]; the order of the
    array is not modelled. *)
Definition dashboard (h : Authorization) (db : DB)
    : Outcome + (ObjectId * User.t * gmap nat PopulatedGroup.t) :=
  match auth h db with
  | inl r => inl r
  | inr None => inl (Reject (TypeError "Cannot read properties of null"))
  | inr (Some (uid, user)) =>
      inr (uid, user,
           populate db <$> filter (fun kv => uid ∈ Group.members kv.2) (groups db))
  end.

(** ** Invariants of the store *)

(** The credentials of a request. *)
Definition credentials (r : Request) : Authorization :=
  match r with
  | PostGroupCreate h _ => h
  | PostGroupExpense h _ _ => h
  | PostExpenseMarkPaid h _ => h
  end.

(** Groups and expenses refer to each other: every id a group lists is a
    stored expense of that group, every stored expense is listed by its
    group, and no group lists an id twice. *)
Definition consistent (db : DB) : Prop :=
  (forall gid g id, groups db !! gid = Some g -> id ∈ Group.expenses g ->
     exists e, expenses db !! id = Some e /\ Expense.group e = gid) /\
  (forall id e, expenses db !! id = Some e ->
     exists g, groups db !! Expense.group e = Some g /\ id ∈ Group.expenses g) /\
  (forall gid g, groups db !! gid = Some g -> NoDup (Group.expenses g)).

(** What no route changes in a stored expense, and the one way its flag
    moves. *)
Definition same_expense_data (e e' : Expense.t) : Prop :=
  Expense.label e' = Expense.label e /\
  Expense.amount e' = Expense.amount e /\
  Expense.date e' = Expense.date e /\
  Expense.group e' = Expense.group e /\
  Expense.splits e' = Expense.splits e /\
  Expense.createdAt e' = Expense.createdAt e /\
  (Expense.paid e = true -> Expense.paid e' = true).

(** How a stored group evolves: its expense list grows at the end. *)
Definition group_grows (g g' : Group.t) : Prop :=
  Group.name g' = Group.name g /\
  Group.createdAt g' = Group.createdAt g /\
  Group.expenses g `prefix_of` Group.expenses g'.

(** No two stored users share a name, no two share a phone. *)
Definition unique_users (db : DB) : Prop :=
  forall i j u v, users db !! i = Some u -> users db !! j = Some v ->
    User.name u = User.name v \/ User.phone u = User.phone v -> i = j.

(** A stand-in for bcrypt to run the account routes on. *)
Module Bcrypt.
Definition hash (password salt : string) : string := "$2b$" +:+ password.
Definition compare (password hashed : string) : bool :=
  String.eqb hashed ("$2b$" +:+ password).
End Bcrypt.

Module Newcomer.
(** Dave signs up in an empty store. *)
Definition body : SignupBody.t :=
  SignupBody.mk (Some "dave") (Some "555") (Some "dave@upi") (Some "secret").
Definition dave : User.t := User.mk "dave" "555" "dave@upi" "$2b$secret" [] [].
Definition empty : DB := mkDB ∅ ∅ ∅.
Definition db1 : DB := insert_user 20 dave empty.
End Newcomer.

(** * Properties *)

(** ** Inversion of the routes *)

Lemma auth_inr h db u :
  auth h db = inr u -> exists id, h = ValidToken id /\ u = pair id <$> users db !! id.
Proof. destruct h; simpl; intros H; inversion H; eauto. Qed.

Lemma string_required_Some v :
  string_required v = true -> exists s, v = Some s /\ s <> "".
Proof.
  destruct v as [s|]; simpl; [|discriminate].
  intros H. exists s. split; [done|]. intros ->. discriminate.
Qed.

Lemma string_required_intro s : s <> "" -> string_required (Some s) = true.
Proof.
  intros H. simpl. destruct (String.eqb_spec s ""); [contradiction|done].
Qed.

Lemma Group_create_ok name createdBy members env db n :
  name = Some n -> n <> "" -> groups db !! newId env = None ->
  Group_create name createdBy members env db =
    inr (insert_group (newId env) (Group.mk n createdBy members [] (now env) (now env)) db,
         newId env,
         Group.mk n createdBy members [] (now env) (now env)).
Proof.
  intros -> Hn Hf. unfold Group_create.
  rewrite (string_required_intro _ Hn), Hf. reflexivity.
Qed.

Lemma Group_create_inv name createdBy members env db db' id g :
  Group_create name createdBy members env db = inr (db', id, g) ->
  exists n, name = Some n /\ n <> "" /\ groups db !! newId env = None /\
    id = newId env /\ g = Group.mk n createdBy members [] (now env) (now env) /\
    db' = insert_group id g db.
Proof.
  unfold Group_create. destruct name as [n|]; [|discriminate].
  destruct (string_required (Some n)) eqn:Hr; [|discriminate].
  destruct (groups db !! newId env) eqn:Hf; [discriminate|].
  intros H. inversion H; subst. exists n.
  apply string_required_Some in Hr as (s & Hs & Hne). inversion Hs; subst.
  repeat split; done.
Qed.

Lemma group_create_inv h body env db db' id g :
  group_create h body env db = (db', Respond 200 (JGroup id g)) ->
  exists uid u n m,
    h = ValidToken uid /\ users db !! uid = Some u /\
    GroupBody.name body = Some n /\ n <> "" /\
    GroupBody.members body = Some m /\
    groups db !! newId env = None /\ id = newId env /\
    g = Group.mk n uid (uid :: m) [] (now env) (now env) /\
    db' = insert_group id g db.
Proof.
  unfold group_create. destruct (auth h db) as [r|[[uid u]|]] eqn:Ha.
  - destruct h; simpl in Ha; inversion Ha; subst; intros H; inversion H.
  - apply auth_inr in Ha as (uid' & -> & Hu).
    destruct (users db !! uid') as [u'|] eqn:Hl; simpl in Hu; [|discriminate].
    inversion Hu; subst.
    destruct (GroupBody.members body) as [m|]; [|intros H; inversion H].
    destruct (Group_create _ _ _ _ _) as [e|[[db1 id1] g1]] eqn:Hc;
      intros H; inversion H; subst.
    apply Group_create_inv in Hc as (n & Hn & Hne & Hf & Hid & Hg & Hdb).
    exists uid', u', n, m. repeat split; done.
  - intros H; inversion H.
Qed.

Lemma Expense_create_ok label amount date group splits paid env db l a d :
  label = Some l -> l <> "" -> amount = Some a -> date = Some d ->
  expenses db !! newId env = None ->
  Expense_create label amount date group splits paid env db =
    inr (insert_expense (newId env)
           (Expense.mk l a d group (cast_split <$> default [] splits) paid
              (now env) (now env)) db,
         newId env,
         Expense.mk l a d group (cast_split <$> default [] splits) paid
           (now env) (now env)).
Proof.
  intros -> Hl -> -> Hf. unfold Expense_create, Expense_failing.
  rewrite (string_required_intro _ Hl), Hf. reflexivity.
Qed.

Lemma Expense_create_invalid label amount date group splits paid env db :
  Expense_failing label amount date <> [] ->
  Expense_create label amount date group splits paid env db
  = inl (ValidationError (Expense_failing label amount date)).
Proof.
  intros Hf. unfold Expense_create.
  destruct (Expense_failing label amount date); [done|].
  by destruct label, amount, date.
Qed.

Lemma Expense_create_inv label amount date group splits paid env db db' id e :
  Expense_create label amount date group splits paid env db = inr (db', id, e) ->
  exists l a d, label = Some l /\ l <> "" /\ amount = Some a /\ date = Some d /\
    expenses db !! newId env = None /\ id = newId env /\
    e = Expense.mk l a d group (cast_split <$> default [] splits) paid
          (now env) (now env) /\
    db' = insert_expense id e db.
Proof.
  unfold Expense_create, Expense_failing.
  destruct label as [l|]; [|discriminate].
  destruct amount as [a|]; [|discriminate].
  destruct date as [d|]; [|discriminate].
  destruct (string_required (Some l)) eqn:Hr; [|discriminate]. simpl.
  destruct (expenses db !! newId env) eqn:Hf; [discriminate|].
  intros H. inversion H; subst. exists l, a, d.
  apply string_required_Some in Hr as (s & Hs & Hne). inversion Hs; subst.
  repeat split; done.
Qed.

Lemma group_expense_ok uid groupId group body env db l a d :
  groups db !! groupId = Some group ->
  ExpenseBody.label body = Some l -> l <> "" ->
  ExpenseBody.amount body = Some a ->
  date_or_now (ExpenseBody.date body) env = Some d ->
  expenses db !! newId env = None ->
  let e := Expense.mk l a d groupId
             (cast_split <$> default [] (ExpenseBody.splits body)) false
             (now env) (now env) in
  group_expense (ValidToken uid) groupId body env db =
    (insert_group groupId (Group_push_expense (newId env) group env)
       (insert_expense (newId env) e db),
     Respond 200 (JExpense (newId env) e)).
Proof.
  intros Hg Hl Hne Ha Hd Hf e. unfold group_expense. cbn [auth]. rewrite Hg.
  erewrite Expense_create_ok by eassumption. reflexivity.
Qed.

Lemma group_expense_inv h groupId body env db db' id e :
  group_expense h groupId body env db = (db', Respond 200 (JExpense id e)) ->
  exists uid group l a d,
    h = ValidToken uid /\ groups db !! groupId = Some group /\
    ExpenseBody.label body = Some l /\ l <> "" /\
    ExpenseBody.amount body = Some a /\
    date_or_now (ExpenseBody.date body) env = Some d /\
    expenses db !! newId env = None /\ id = newId env /\
    e = Expense.mk l a d groupId
          (cast_split <$> default [] (ExpenseBody.splits body)) false
          (now env) (now env) /\
    db' = insert_group groupId (Group_push_expense id group env)
            (insert_expense id e db).
Proof.
  unfold group_expense. destruct (auth h db) as [r|u] eqn:Ha.
  - destruct h; simpl in Ha; inversion Ha; subst; intros H; inversion H.
  - apply auth_inr in Ha as (uid & -> & _).
    destruct (groups db !! groupId) as [group|] eqn:Hg; [|intros H; inversion H].
    destruct (Expense_create _ _ _ _ _ _ _ _) as [ex|[[db1 id1] e1]] eqn:Hc;
      intros H; inversion H; subst.
    apply Expense_create_inv in Hc
      as (l & a & d & Hl & Hne & Hamt & Hd & Hf & Hid & He & Hdb).
    exists uid, group, l, a, d. subst. repeat split; done.
Qed.

Lemma expense_markPaid_ok uid id e env db :
  expenses db !! id = Some e ->
  expense_markPaid (ValidToken uid) id env db =
    (insert_expense id (Expense_set_paid e env) db,
     Respond 200 (JMessage "Expense marked as paid")).
Proof. intros He. unfold expense_markPaid. simpl. by rewrite He. Qed.

Lemma expense_markPaid_inv h id env db db' b :
  expense_markPaid h id env db = (db', Respond 200 b) ->
  exists uid e, h = ValidToken uid /\ expenses db !! id = Some e /\
    b = JMessage "Expense marked as paid" /\
    db' = insert_expense id (Expense_set_paid e env) db.
Proof.
  unfold expense_markPaid. destruct (auth h db) as [r|u] eqn:Ha.
  - destruct h; simpl in Ha; inversion Ha; subst; intros H; inversion H.
  - apply auth_inr in Ha as (uid & -> & _).
    destruct (expenses db !! id) as [e|] eqn:He; intros H; inversion H; subst.
    exists uid, e. repeat split; done.
Qed.

(** ** Membership of a group is fixed once the group exists *)

Lemma same_membership_refl g : same_membership g g.
Proof. by split. Qed.

Lemma same_membership_trans g1 g2 g3 :
  same_membership g1 g2 -> same_membership g2 g3 -> same_membership g1 g3.
Proof. intros [? ?] [? ?]. split; congruence. Qed.

Lemma group_create_keeps_groups h body env db id g :
  groups db !! id = Some g ->
  groups (group_create h body env db).1 !! id = Some g.
Proof.
  intros Hg. unfold group_create.
  destruct (auth h db) as [r|[[uid u]|]]; try done.
  destruct (GroupBody.members body) as [m|]; try done.
  destruct (Group_create _ _ _ _ _) as [e|[[db1 id1] g1]] eqn:Hc; try done.
  apply Group_create_inv in Hc as (n & _ & _ & Hf & -> & _ & ->). simpl.
  rewrite lookup_insert_ne; [done|]. intros <-. congruence.
Qed.

Lemma group_expense_keeps_membership h groupId body env db id g :
  groups db !! id = Some g ->
  exists g', groups (group_expense h groupId body env db).1 !! id = Some g' /\
             same_membership g g'.
Proof.
  intros Hg. unfold group_expense.
  destruct (auth h db) as [r|u]; [eauto using same_membership_refl|].
  destruct (groups db !! groupId) as [group|] eqn:Hgr;
    [|eauto using same_membership_refl].
  destruct (Expense_create _ _ _ _ _ _ _ _) as [ex|[[db1 id1] e1]] eqn:Hc;
    [eauto using same_membership_refl|].
  apply Expense_create_inv in Hc as (l & a & d & _ & _ & _ & _ & _ & -> & _ & ->). simpl.
  destruct (decide (groupId = id)) as [->|Hne].
  - rewrite lookup_insert_eq. eexists; split; [done|].
    rewrite Hg in Hgr. inversion Hgr; subst. by split.
  - rewrite lookup_insert_ne by done. eauto using same_membership_refl.
Qed.

Lemma expense_markPaid_keeps_groups h id env db :
  groups (expense_markPaid h id env db).1 = groups db.
Proof.
  unfold expense_markPaid. destruct (auth h db) as [r|u]; [done|].
  by destruct (expenses db !! id).
Qed.

Lemma step_keeps_membership db db' id g :
  step db db' -> groups db !! id = Some g ->
  exists g', groups db' !! id = Some g' /\ same_membership g g'.
Proof.
  intros Hs Hg. destruct Hs as [r env db|us db].
  - destruct r as [h body|h groupId body|h eid]; simpl.
    + exists g. split; [by apply group_create_keeps_groups|apply same_membership_refl].
    + by apply group_expense_keeps_membership.
    + rewrite expense_markPaid_keeps_groups. eauto using same_membership_refl.
  - simpl. eauto using same_membership_refl.
Qed.

Lemma reachable_keeps_membership db db' id g :
  reachable_from db db' -> groups db !! id = Some g ->
  exists g', groups db' !! id = Some g' /\ same_membership g g'.
Proof.
  intros Hr. revert g. induction Hr as [db|db db1 db2 Hs _ IH]; intros g Hg.
  - eauto using same_membership_refl.
  - destruct (step_keeps_membership _ _ _ _ Hs Hg) as (g1 & Hg1 & H1).
    destruct (IH _ Hg1) as (g2 & Hg2 & H2).
    eauto using same_membership_trans.
Qed.

(** C7: the user who creates a group is in the member list of the created
    group, and stays in it: whatever requests are served afterwards, the
    group is still stored with the same creator and the same member list. *)
Theorem creator_is_member_forever h body env db db' id g :
  group_create h body env db = (db', Respond 200 (JGroup id g)) ->
  h = ValidToken (Group.createdBy g) /\
  Group.createdBy g ∈ Group.members g /\
  forall db'', reachable_from db' db'' ->
    exists g'', groups db'' !! id = Some g'' /\
      Group.createdBy g'' = Group.createdBy g /\
      Group.members g'' = Group.members g /\
      Group.createdBy g'' ∈ Group.members g''.
Proof.
  intros Hc.
  apply group_create_inv in Hc
    as (uid & u & n & m & -> & Hu & Hn & Hne & Hm & Hf & -> & -> & ->).
  simpl. split; [done|]. split; [apply list_elem_of_here|].
  intros db'' Hr.
  eapply reachable_keeps_membership in Hr as (g'' & Hg'' & Hcb & Hmem);
    [|simpl; apply lookup_insert_eq].
  simpl in Hcb, Hmem. exists g''. repeat split; try done.
  rewrite Hcb, Hmem. apply list_elem_of_here.
Qed.

Lemma creator_is_member_forever_witness :
  let body := GroupBody.mk (Some "Flat") (Some [Scenario.bob; Scenario.carol]) in
  let g := Group.mk "Flat" Scenario.alice
             [Scenario.alice; Scenario.bob; Scenario.carol] [] 2000 2000 in
  let db' := insert_group 20 g Scenario.db0 in
  let db'' := (expense_markPaid (ValidToken Scenario.bob) 7 Scenario.env2 db').1 in
  exists g'', groups db'' !! 20 = Some g'' /\
    Group.createdBy g'' = Scenario.alice /\
    Group.members g'' = [Scenario.alice; Scenario.bob; Scenario.carol] /\
    Group.createdBy g'' ∈ Group.members g''.
Proof.
  intros body g db' db''.
  refine (proj2 (proj2 (creator_is_member_forever
            (ValidToken Scenario.alice) body Scenario.env1 Scenario.db0
            db' 20 g _)) db'' _).
  - reflexivity.
  - apply rtc_once. exact (step_route (PostExpenseMarkPaid (ValidToken Scenario.bob) 7)
             Scenario.env2 db').
Defined.

(** C10: the member list of a created group is the creator's id followed by
    the ids of the request, in their order and with their repetitions; and a
    request of a stored user with a name and a fresh id does create it. *)
Theorem group_create_members h body env db m :
  GroupBody.members body = Some m ->
  (forall db' id g,
     group_create h body env db = (db', Respond 200 (JGroup id g)) ->
     exists uid, h = ValidToken uid /\ Group.createdBy g = uid /\
       Group.members g = uid :: m /\ groups db' !! id = Some g) /\
  (forall uid u n,
     h = ValidToken uid -> users db !! uid = Some u ->
     GroupBody.name body = Some n -> n <> "" ->
     groups db !! newId env = None ->
     exists db' g,
       group_create h body env db = (db', Respond 200 (JGroup (newId env) g))).
Proof.
  intros Hm. split.
  - intros db' id g Hc.
    apply group_create_inv in Hc
      as (uid & u & n & m' & -> & Hu & Hn & Hne & Hm' & Hf & -> & -> & ->).
    rewrite Hm in Hm'. inversion Hm'; subst m'.
    exists uid. simpl. repeat split; try done. apply lookup_insert_eq.
  - intros uid u n -> Hu Hn Hne Hf. unfold group_create. simpl.
    rewrite Hu, Hm. simpl.
    erewrite Group_create_ok by eassumption. eauto.
Qed.

Lemma group_create_members_witness :
  let body := GroupBody.mk (Some "Flat")
                (Some [Scenario.alice; Scenario.bob; Scenario.bob]) in
  exists db' g,
    group_create (ValidToken Scenario.alice) body Scenario.env1 Scenario.db0
      = (db', Respond 200 (JGroup 20 g)) /\
    Group.members g
      = [Scenario.alice; Scenario.alice; Scenario.bob; Scenario.bob].
Proof.
  intros body.
  destruct (group_create_members (ValidToken Scenario.alice) body
              Scenario.env1 Scenario.db0
              [Scenario.alice; Scenario.bob; Scenario.bob] eq_refl)
    as [Hinv Hok].
  destruct (Hok Scenario.alice (Scenario.user "alice") "Flat"
              eq_refl eq_refl eq_refl ltac:(discriminate) eq_refl)
    as (db' & g & Hrun).
  exists db', g. split; [exact Hrun|].
  destruct (Hinv _ _ _ Hrun) as (uid & Hh & _ & Hmem & _).
  inversion Hh; subst uid. exact Hmem.
Defined.

(** C9 (as stated, refuted): the dinner was recorded at time 2000; marking it
    as paid at time 3000 also moves its [updatedAt] to 3000. *)
Lemma marking_refreshes_updatedAt :
  ~ marking_changes_only_paid (ValidToken Scenario.bob) 20 Scenario.env2 Dinner.db1.
Proof.
  intros H.
  specialize (H _ _ _ eq_refl eq_refl).
  apply (f_equal (fmap Expense.updatedAt)) in H.
  vm_compute in H. discriminate H.
Qed.

(** C9 (amended): a successful mark-paid request changes, of the stored
    expense, only the top-level paid flag and the [updatedAt] timestamp: it
    keeps the label, amount, date, owning group, creation time and whole
    splits sequence of the expense (so every split keeps its own paid flag),
    sets the top-level paid flag, moves [updatedAt] to the time of the request
    when the flag was not set yet (and leaves it otherwise), and touches no
    other document. *)
Theorem expense_markPaid_frame h id env db db' b e :
  expense_markPaid h id env db = (db', Respond 200 b) ->
  expenses db !! id = Some e ->
  exists e',
    expenses db' !! id = Some e' /\
    Expense.paid e' = true /\
    Expense.label e' = Expense.label e /\
    Expense.amount e' = Expense.amount e /\
    Expense.date e' = Expense.date e /\
    Expense.group e' = Expense.group e /\
    Expense.splits e' = Expense.splits e /\
    Expense.createdAt e' = Expense.createdAt e /\
    Expense.updatedAt e' =
      (if Expense.paid e then Expense.updatedAt e else now env) /\
    (forall id', id' <> id -> expenses db' !! id' = expenses db !! id') /\
    groups db' = groups db /\ users db' = users db.
Proof.
  intros Hm He.
  apply expense_markPaid_inv in Hm as (uid & e0 & -> & He0 & -> & ->).
  rewrite He in He0. inversion He0; subst e0.
  exists (Expense_set_paid e env). simpl.
  split; [apply lookup_insert_eq|].
  unfold Expense_set_paid.
  destruct (Expense.paid e) eqn:Hp; simpl; repeat split; try done;
    intros id' Hne; by rewrite lookup_insert_ne.
Qed.

Lemma expense_markPaid_frame_witness :
  let e := Expense.mk "Dinner" (90 # 1)%Q 2000 10
             [Split.mk (Some Scenario.bob) (Some (30 # 1)%Q) false] false 2000 2000 in
  let db := insert_expense 20 e Scenario.db0 in
  let db' := insert_expense 20 (Expense_set_paid e Scenario.env2) db in
  exists e',
    expenses db' !! 20 = Some e' /\
    Expense.paid e' = true /\
    Expense.label e' = "Dinner" /\
    Expense.amount e' = (90 # 1)%Q /\
    Expense.date e' = 2000 /\
    Expense.group e' = 10 /\
    Expense.splits e' = [Split.mk (Some Scenario.bob) (Some (30 # 1)%Q) false] /\
    Expense.createdAt e' = 2000 /\
    Expense.updatedAt e' = 3000 /\
    (forall id', id' <> 20 -> expenses db' !! id' = expenses db !! id') /\
    groups db' = groups db /\ users db' = users db.
Proof.
  intros e db db'.
  exact (expense_markPaid_frame (ValidToken Scenario.carol) 20 Scenario.env2
           db db' (JMessage "Expense marked as paid") e eq_refl eq_refl).
Defined.

(** ** Creating an expense *)

Lemma cast_split_paid (allocs : list SplitInput.t) :
  Forall2 (fun i s => Split.paid s = default false (SplitInput.paid i))
    allocs (cast_split <$> allocs).
Proof. induction allocs; simpl; constructor; done. Qed.

Lemma cast_split_shares (allocs : list SplitInput.t) :
  (fun s => (Split.userId s, Split.shareAmount s)) <$> (cast_split <$> allocs)
  = (fun i => (SplitInput.userId i, SplitInput.shareAmount i)) <$> allocs.
Proof. induction allocs; simpl; [done|]. by f_equal. Qed.

(** C1 (as stated, refuted): the group [trip] takes an expense of 100 whose
    shares, 40 and 40, sum to 80. *)
Lemma invalid_allocations_accepted :
  ~ refuses_invalid_allocations (ValidToken Scenario.alice) 10
      (ExpenseBody.mk (Some "Dinner") (Some (100 # 1)%Q) None
         (Some [Scenario.share Scenario.alice (40 # 1)%Q;
                Scenario.share Scenario.bob (40 # 1)%Q]))
      Scenario.env1 Scenario.db0.
Proof.
  intros H. destruct (H (100 # 1)%Q eq_refl) as [paths Hp].
  - right; right; right. unfold sum_deviates, tolerance. vm_compute. reflexivity.
  - apply (f_equal snd) in Hp. vm_compute in Hp. discriminate.
Qed.

(** C1 (amended): the route validates no allocation. For an authenticated
    caller, an existing group, a non-empty label, an amount, a date that is
    absent or can be cast and a fresh id, the expense is recorded and returned
    whatever the allocations are, and every split keeps the member and the
    share it was given. *)
Theorem group_expense_keeps_shares uid groupId group body env db l a d :
  groups db !! groupId = Some group ->
  ExpenseBody.label body = Some l -> l <> "" ->
  ExpenseBody.amount body = Some a ->
  date_or_now (ExpenseBody.date body) env = Some d ->
  expenses db !! newId env = None ->
  exists db' e,
    group_expense (ValidToken uid) groupId body env db
      = (db', Respond 200 (JExpense (newId env) e)) /\
    expenses db' !! newId env = Some e /\
    Expense.amount e = a /\
    (fun s => (Split.userId s, Split.shareAmount s)) <$> Expense.splits e
      = (fun i => (SplitInput.userId i, SplitInput.shareAmount i))
          <$> default [] (ExpenseBody.splits body).
Proof.
  intros Hg Hl Hne Ha Hd Hf.
  pose proof (group_expense_ok uid groupId group body env db l a d
                Hg Hl Hne Ha Hd Hf) as Hrun. simpl in Hrun.
  eexists _, _. split; [exact Hrun|]. simpl.
  split; [apply lookup_insert_eq|]. split; [done|]. apply cast_split_shares.
Qed.

Lemma group_expense_keeps_shares_witness :
  let body := ExpenseBody.mk (Some "Dinner") (Some (100 # 1)%Q) None
                (Some [Scenario.share Scenario.alice (40 # 1)%Q;
                       Scenario.share Scenario.bob (40 # 1)%Q]) in
  exists db' e,
    group_expense (ValidToken Scenario.alice) 10 body Scenario.env1 Scenario.db0
      = (db', Respond 200 (JExpense 20 e)) /\
    expenses db' !! 20 = Some e /\
    Expense.amount e = (100 # 1)%Q /\
    (fun s => (Split.userId s, Split.shareAmount s)) <$> Expense.splits e
      = [(Some Scenario.alice, Some (40 # 1)%Q); (Some Scenario.bob, Some (40 # 1)%Q)].
Proof.
  intros body.
  exact (group_expense_keeps_shares Scenario.alice 10 Scenario.trip body
           Scenario.env1 Scenario.db0 "Dinner" (100 # 1)%Q 2000
           eq_refl eq_refl ltac:(discriminate) eq_refl eq_refl eq_refl).
Defined.

(** C4 (as stated, refuted): carol is not a member of [trip], her expense is
    neither refused as forbidden nor refused at all. *)
Lemma non_member_accepted :
  ~ refuses_non_members (ValidToken Scenario.carol) 10
      (ExpenseBody.mk (Some "Taxi") (Some (12 # 1)%Q) None
         (Some [Scenario.share Scenario.alice (12 # 1)%Q]))
      Scenario.env1 Scenario.db0.
Proof.
  intros H.
  destruct (H Scenario.carol Scenario.trip eq_refl eq_refl) as [b Hb].
  - unfold Scenario.trip, Scenario.carol, Scenario.alice, Scenario.bob. simpl.
    rewrite !elem_of_cons, elem_of_nil. intros [?|[?|[]]]; discriminate.
  - vm_compute in Hb. discriminate.
Qed.

(** C4 (amended): the route has no membership check. It never answers 403,
    its effect and answer do not depend on who the authenticated requester
    is, and with an existing group, a non-empty label, an amount, a date that
    is absent or can be cast and a fresh id the expense of any authenticated
    requester is recorded. *)
Theorem group_expense_any_requester groupId body env db :
  (forall h, ~ forbidden (group_expense h groupId body env db).2) /\
  (forall uid uid',
     group_expense (ValidToken uid) groupId body env db
     = group_expense (ValidToken uid') groupId body env db) /\
  (forall uid group l a d,
     groups db !! groupId = Some group ->
     ExpenseBody.label body = Some l -> l <> "" ->
     ExpenseBody.amount body = Some a ->
     date_or_now (ExpenseBody.date body) env = Some d ->
     expenses db !! newId env = None ->
     exists db' e,
       group_expense (ValidToken uid) groupId body env db
         = (db', Respond 200 (JExpense (newId env) e)) /\
       expenses db' !! newId env = Some e).
Proof.
  split; [|split].
  - intros h [b Hb]. unfold group_expense in Hb.
    destruct h; simpl in Hb; try discriminate;
      destruct (groups db !! groupId); simpl in Hb; try discriminate;
      destruct (Expense_create _ _ _ _ _ _ _ _) as [ex|[[db1 id1] e1]];
      simpl in Hb; discriminate.
  - reflexivity.
  - intros uid group l a d Hg Hl Hne Ha Hd Hf.
    pose proof (group_expense_ok uid groupId group body env db l a d
                  Hg Hl Hne Ha Hd Hf) as Hrun. simpl in Hrun.
    eexists _, _. split; [exact Hrun|]. simpl. apply lookup_insert_eq.
Qed.

Lemma group_expense_any_requester_witness :
  let body := ExpenseBody.mk (Some "Taxi") (Some (12 # 1)%Q) None
                (Some [Scenario.share Scenario.alice (12 # 1)%Q]) in
  (Scenario.carol ∉ Group.members Scenario.trip) /\
  exists db' e,
    group_expense (ValidToken Scenario.carol) 10 body Scenario.env1 Scenario.db0
      = (db', Respond 200 (JExpense 20 e)) /\
    expenses db' !! 20 = Some e.
Proof.
  intros body. split.
  - unfold Scenario.trip, Scenario.carol, Scenario.alice, Scenario.bob. simpl.
    rewrite !elem_of_cons, elem_of_nil. intros [?|[?|[]]]; discriminate.
  - exact (proj2 (proj2 (group_expense_any_requester 10 body
                           Scenario.env1 Scenario.db0))
             Scenario.carol Scenario.trip "Taxi" (12 # 1)%Q 2000
             eq_refl eq_refl ltac:(discriminate) eq_refl eq_refl eq_refl).
Defined.

(** C5 (as stated, refuted): a split that comes with [paid: true] is stored
    paid. *)
Lemma created_split_may_be_paid :
  ~ creates_all_unpaid (ValidToken Scenario.alice) 10
      (ExpenseBody.mk (Some "Dinner") (Some (30 # 1)%Q) None
         (Some [SplitInput.mk (Some Scenario.bob) (Some (30 # 1)%Q) (Some true)]))
      Scenario.env1 Scenario.db0.
Proof.
  intros H. edestruct H as [_ Hs]; [reflexivity|].
  simpl in Hs. inversion Hs as [|? ? Hp _]. discriminate.
Qed.

(** C5 (amended): a successful creation stores, appends to the group and
    returns an expense whose overall paid flag is false, and in which every
    split has the paid flag of its entry in the request, false when the entry
    has none; so all splits are unpaid when the request has the documented
    shape [{ userId, shareAmount }]. *)
Theorem group_expense_created_flags h groupId body env db db' id e :
  group_expense h groupId body env db = (db', Respond 200 (JExpense id e)) ->
  Expense.paid e = false /\
  expenses db' !! id = Some e /\
  (exists group group',
     groups db !! groupId = Some group /\ groups db' !! groupId = Some group' /\
     Group.expenses group' = (Group.expenses group ++ [id])%list) /\
  Forall2 (fun i s => Split.paid s = default false (SplitInput.paid i))
    (default [] (ExpenseBody.splits body)) (Expense.splits e) /\
  (Forall (fun i => SplitInput.paid i = None) (default [] (ExpenseBody.splits body)) ->
   all_unpaid e).
Proof.
  intros Hc.
  apply group_expense_inv in Hc
    as (uid & group & l & a & d & -> & Hg & Hl & Hne & Ha & Hd & Hf & -> & -> & ->).
  simpl. split; [done|]. split; [apply lookup_insert_eq|].
  split.
  { exists group, (Group_push_expense (newId env) group env).
    split; [done|]. split; [apply lookup_insert_eq|done]. }
  split; [apply cast_split_paid|].
  intros Hnone. split; [done|]. simpl.
  induction Hnone as [|i allocs Hi _ IH]; simpl; constructor; [|done].
  simpl. by rewrite Hi.
Qed.

Lemma group_expense_created_flags_witness :
  let body := ExpenseBody.mk (Some "Dinner") (Some (90 # 1)%Q) None
                (Some [Scenario.share Scenario.alice (30 # 1)%Q;
                       Scenario.share Scenario.bob (30 # 1)%Q;
                       Scenario.share Scenario.carol (30 # 1)%Q]) in
  let r := group_expense (ValidToken Scenario.alice) 10 body
             Scenario.env1 Scenario.db0 in
  exists e, r.2 = Respond 200 (JExpense 20 e) /\ all_unpaid e.
Proof.
  intros body r.
  pose (e := Expense.mk "Dinner" (90 # 1)%Q 2000 10
               (cast_split <$> default [] (ExpenseBody.splits body)) false 2000 2000).
  exists e. split; [reflexivity|].
  refine (proj2 (proj2 (proj2 (proj2
            (group_expense_created_flags (ValidToken Scenario.alice) 10 body
               Scenario.env1 Scenario.db0 r.1 20 e eq_refl)))) _).
  repeat constructor.
Defined.

(** C6 (as stated, refuted): an amount of -5 under a non-empty label is
    recorded. *)
Lemma negative_amount_accepted :
  ~ refuses_bad_label_or_amount (ValidToken Scenario.alice) 10
      (ExpenseBody.mk (Some "Refund") (Some (-5 # 1)%Q) None None)
      Scenario.env1 Scenario.db0.
Proof.
  intros H. destruct H as [paths Hp].
  - right. exists (-5 # 1)%Q. split; [reflexivity|]. vm_compute. discriminate.
  - apply (f_equal snd) in Hp. vm_compute in Hp. discriminate.
Qed.

(** C6 (amended): for an authenticated caller and an existing group, a label
    that is missing or empty, or a missing amount, fails with a validation
    error that names the path, and nothing is recorded; the sign of the
    amount is not looked at: any amount under a non-empty label, with a date
    that is absent or can be cast and a fresh id, is recorded. *)
Theorem group_expense_required_fields uid groupId group body env db :
  groups db !! groupId = Some group ->
  (string_required (ExpenseBody.label body) = false ->
   exists paths, "label" ∈ paths /\
     group_expense (ValidToken uid) groupId body env db
       = (db, Reject (ValidationError paths))) /\
  (ExpenseBody.amount body = None ->
   exists paths, "amount" ∈ paths /\
     group_expense (ValidToken uid) groupId body env db
       = (db, Reject (ValidationError paths))) /\
  (forall l a d,
     ExpenseBody.label body = Some l -> l <> "" ->
     ExpenseBody.amount body = Some a ->
     date_or_now (ExpenseBody.date body) env = Some d ->
     expenses db !! newId env = None ->
     exists db' e,
       group_expense (ValidToken uid) groupId body env db
         = (db', Respond 200 (JExpense (newId env) e)) /\
       expenses db' !! newId env = Some e /\ Expense.amount e = a).
Proof.
  intros Hg. split; [|split].
  - intros Hreq.
    assert ("label" ∈ Expense_failing (ExpenseBody.label body)
              (ExpenseBody.amount body) (date_or_now (ExpenseBody.date body) env))
      as Hin by (unfold Expense_failing; rewrite Hreq; apply list_elem_of_here).
    eexists. split; [exact Hin|].
    unfold group_expense. cbn [auth]. rewrite Hg.
    rewrite Expense_create_invalid; [done|].
    intros Hnil. rewrite Hnil in Hin. by apply elem_of_nil in Hin.
  - intros Hnone.
    assert ("amount" ∈ Expense_failing (ExpenseBody.label body)
              (ExpenseBody.amount body) (date_or_now (ExpenseBody.date body) env))
      as Hin.
    { unfold Expense_failing. rewrite Hnone. cbn [number_required].
      apply elem_of_app. right. apply list_elem_of_here. }
    eexists. split; [exact Hin|].
    unfold group_expense. cbn [auth]. rewrite Hg.
    rewrite Expense_create_invalid; [done|].
    intros Hnil. rewrite Hnil in Hin. by apply elem_of_nil in Hin.
  - intros l a d Hl Hne Ha Hd Hf.
    pose proof (group_expense_ok uid groupId group body env db l a d
                  Hg Hl Hne Ha Hd Hf) as Hrun. simpl in Hrun.
    eexists _, _. split; [exact Hrun|]. simpl. split; [apply lookup_insert_eq|done].
Qed.

Lemma group_expense_required_fields_witness :
  (exists paths, "label" ∈ paths /\
     group_expense (ValidToken Scenario.alice) 10
       (ExpenseBody.mk (Some "") (Some (-5 # 1)%Q) None None)
       Scenario.env1 Scenario.db0
     = (Scenario.db0, Reject (ValidationError paths))).
Proof.
  exact (proj1 (group_expense_required_fields Scenario.alice 10 Scenario.trip
                  (ExpenseBody.mk (Some "") (Some (-5 # 1)%Q) None None)
                  Scenario.env1 Scenario.db0 eq_refl) eq_refl).
Defined.

(** ** Marking an expense as paid *)

Lemma Expense_set_paid_paid e env : Expense.paid (Expense_set_paid e env) = true.
Proof. unfold Expense_set_paid. by destruct (Expense.paid e) eqn:Hp. Qed.

Lemma Expense_set_paid_splits e env :
  Expense.splits (Expense_set_paid e env) = Expense.splits e.
Proof. unfold Expense_set_paid. by destruct (Expense.paid e). Qed.

Lemma Expense_set_paid_again e env env' :
  Expense_set_paid (Expense_set_paid e env) env' = Expense_set_paid e env.
Proof.
  unfold Expense_set_paid at 1. by rewrite Expense_set_paid_paid.
Qed.


(** C2 (as stated, refuted): in a store reached from one where the invariant
    holds, the dinner is paid while none of its splits is. *)
Lemma paid_flag_not_derived :
  paid_derived_everywhere Scenario.db0 /\
  reachable_from Scenario.db0 Dinner.db2 /\
  ~ paid_derived_everywhere Dinner.db2.
Proof.
  split; [|split].
  - intros id e He. vm_compute in He. discriminate.
  - eapply rtc_l; [|apply rtc_once].
    + exact (step_route (PostGroupExpense (ValidToken Scenario.alice) 10 Dinner.body)
               Scenario.env1 Scenario.db0).
    + exact (step_route (PostExpenseMarkPaid (ValidToken Scenario.bob) 20)
               Scenario.env2 Dinner.db1).
  - intros H.
    destruct (H 20 _ eq_refl) as [Hall _].
    specialize (Hall eq_refl). simpl in Hall.
    inversion Hall as [|? ? Hp _]. discriminate.
Qed.

(** C2 (amended): the overall paid flag is a stored field that no route
    derives from the splits: a created expense has it false whatever flags
    its splits carry, and a successful mark-paid request sets it to true
    whatever flags the splits carry, without changing any of them. *)
Theorem paid_flag_stored_independently env db :
  (forall h groupId body db' id e,
     group_expense h groupId body env db = (db', Respond 200 (JExpense id e)) ->
     expenses db' !! id = Some e /\ Expense.paid e = false) /\
  (forall h id db' b e,
     expense_markPaid h id env db = (db', Respond 200 b) ->
     expenses db !! id = Some e ->
     exists e', expenses db' !! id = Some e' /\ Expense.paid e' = true /\
       Expense.splits e' = Expense.splits e).
Proof.
  split.
  - intros h groupId body db' id e Hc.
    apply group_expense_inv in Hc
      as (uid & group & l & a & d & -> & Hg & Hl & Hne & Ha & Hd & Hf & -> & -> & ->).
    simpl. split; [apply lookup_insert_eq|done].
  - intros h id db' b e Hm He.
    apply expense_markPaid_inv in Hm as (uid & e0 & -> & He0 & -> & ->).
    rewrite He in He0. inversion He0; subst e0.
    exists (Expense_set_paid e env). simpl. split; [apply lookup_insert_eq|].
    split; [apply Expense_set_paid_paid|apply Expense_set_paid_splits].
Qed.

Lemma paid_flag_stored_independently_witness :
  exists e', expenses Dinner.db2 !! 20 = Some e' /\ Expense.paid e' = true /\
    Expense.splits e'
    = [Split.mk (Some Scenario.alice) (Some (30 # 1)%Q) false;
       Split.mk (Some Scenario.bob) (Some (30 # 1)%Q) false;
       Split.mk (Some Scenario.carol) (Some (30 # 1)%Q) false].
Proof.
  exact (proj2 (paid_flag_stored_independently Scenario.env2 Dinner.db1)
           (ValidToken Scenario.bob) 20 Dinner.db2
           (JMessage "Expense marked as paid")
           (Expense.mk "Dinner" (90 # 1)%Q 2000 10
              [Split.mk (Some Scenario.alice) (Some (30 # 1)%Q) false;
               Split.mk (Some Scenario.bob) (Some (30 # 1)%Q) false;
               Split.mk (Some Scenario.carol) (Some (30 # 1)%Q) false]
              false 2000 2000)
           eq_refl eq_refl).
Defined.

(** C3 (as stated, refuted): the dinner is already marked as paid, marking it
    again is answered 200, not a conflict. *)
Lemma second_marking_accepted :
  ~ refuses_second_marking (ValidToken Scenario.bob) 20 Scenario.env3 Dinner.db2.
Proof.
  intros H. edestruct H as [b Hb]; [reflexivity|reflexivity|].
  vm_compute in Hb. discriminate.
Qed.

(** C3 (amended): marking is not exactly-once but idempotent. For an
    authenticated caller the request succeeds whenever the expense exists,
    paid or not, and fails (404) only when it does not exist; a second
    request on the same expense succeeds again and leaves the store as the
    first one left it. *)
Theorem expense_markPaid_idempotent uid id env db :
  (forall e, expenses db !! id = Some e ->
     let db1 := insert_expense id (Expense_set_paid e env) db in
     expense_markPaid (ValidToken uid) id env db
       = (db1, Respond 200 (JMessage "Expense marked as paid")) /\
     forall uid' env',
       expense_markPaid (ValidToken uid') id env' db1
         = (db1, Respond 200 (JMessage "Expense marked as paid"))) /\
  (expenses db !! id = None ->
     expense_markPaid (ValidToken uid) id env db
       = (db, Respond 404 (JError "Expense not found"))) /\
  ~ conflict (expense_markPaid (ValidToken uid) id env db).2.
Proof.
  split; [|split].
  - intros e He db1. split; [by apply expense_markPaid_ok|].
    intros uid' env'.
    rewrite (expense_markPaid_ok uid' id (Expense_set_paid e env) env' db1)
      by (subst db1; simpl; apply lookup_insert_eq).
    f_equal. subst db1. unfold insert_expense. simpl.
    by rewrite Expense_set_paid_again, insert_insert_eq.
  - intros Hnone. unfold expense_markPaid. simpl. by rewrite Hnone.
  - intros [b Hb]. unfold expense_markPaid in Hb. simpl in Hb.
    destruct (expenses db !! id); simpl in Hb; discriminate.
Qed.

Lemma expense_markPaid_idempotent_witness :
  expense_markPaid (ValidToken Scenario.bob) 20 Scenario.env2 Dinner.db1
    = (Dinner.db2, Respond 200 (JMessage "Expense marked as paid")) /\
  forall uid' env',
    expense_markPaid (ValidToken uid') 20 env' Dinner.db2
      = (Dinner.db2, Respond 200 (JMessage "Expense marked as paid")).
Proof.
  exact (proj1 (expense_markPaid_idempotent Scenario.bob 20 Scenario.env2 Dinner.db1)
           (Expense.mk "Dinner" (90 # 1)%Q 2000 10
              [Split.mk (Some Scenario.alice) (Some (30 # 1)%Q) false;
               Split.mk (Some Scenario.bob) (Some (30 # 1)%Q) false;
               Split.mk (Some Scenario.carol) (Some (30 # 1)%Q) false]
              false 2000 2000)
           eq_refl).
Defined.

(** ** Settlement: debt simplification *)

Section SettlementFacts.
Import Settlement.
#[local] Open Scope Q_scope.

Lemma Qle_bool_false x y : Qle_bool x y = false -> y < x.
Proof.
  intros H. destruct (Qlt_le_dec y x) as [Hlt|Hle]; [done|].
  apply Qle_bool_iff in Hle. congruence.
Qed.

Lemma Qle_bool_true x y : Qle_bool x y = true -> x <= y.
Proof. apply Qle_bool_iff. Qed.

Lemma is_creditor_true tol e : is_creditor tol e = true <-> tol < e.2.
Proof.
  unfold is_creditor. destruct (Qle_bool e.2 tol) eqn:H; simpl.
  - apply Qle_bool_true in H. split; [discriminate|lra].
  - apply Qle_bool_false in H. done.
Qed.

Lemma is_debtor_true tol e : is_debtor tol e = true <-> e.2 < - tol.
Proof.
  unfold is_debtor. destruct (Qle_bool (- tol) e.2) eqn:H; simpl.
  - apply Qle_bool_true in H. split; [discriminate|lra].
  - apply Qle_bool_false in H. done.
Qed.

(** *** Selection *)

Lemma best_None before l : best before l = None <-> l = [].
Proof.
  destruct l as [|x l]; simpl; [done|].
  destruct (best before l); split; discriminate.
Qed.

Lemma best_elem before l x : best before l = Some x -> x ∈ l.
Proof.
  revert x. induction l as [|y l IH]; simpl; [discriminate|].
  intros x. destruct (best before l) as [z|].
  - intros H. inversion H; subst. destruct (before y z).
    + apply list_elem_of_here.
    + apply list_elem_of_further. by apply IH.
  - intros H. inversion H; subst. apply list_elem_of_here.
Qed.

(** *** Reducing or dropping a party *)

Lemma elem_of_bfilter {A} (f : A -> bool) (l : list A) x :
  x ∈ List.filter f l <-> x ∈ l /\ f x = true.
Proof. rewrite !list_elem_of_In. apply filter_In. Qed.

Lemma bfilter_length_le {A} (f : A -> bool) (l : list A) :
  (length (List.filter f l) <= length l)%nat.
Proof. induction l as [|x l IH]; simpl; [lia|]. destruct (f x); simpl; lia. Qed.

Lemma bfilter_length_lt {A} (f : A -> bool) (l : list A) x :
  x ∈ l -> f x = false -> (length (List.filter f l) < length l)%nat.
Proof.
  induction l as [|y l IH]; simpl; [by rewrite elem_of_nil|].
  rewrite elem_of_cons. intros [->|Hin] Hf.
  - rewrite Hf. pose proof (bfilter_length_le f l). lia.
  - specialize (IH Hin Hf). destruct (f y); simpl; lia.
Qed.

Lemma bfilter_keys_NoDup (f : nat * Q -> bool) (l : list (nat * Q)) :
  NoDup l.*1 -> NoDup (List.filter f l).*1.
Proof.
  induction l as [|x l IH]; simpl; [done|].
  rewrite NoDup_cons. intros [Hx Hl]. destruct (f x); simpl; [|by apply IH].
  apply NoDup_cons. split; [|by apply IH].
  intros Hin. apply Hx. apply list_elem_of_fmap in Hin as (y & -> & Hy).
  apply elem_of_bfilter in Hy as [Hy _]. apply list_elem_of_fmap. eauto.
Qed.

Lemma reduce_keys live i q l : (reduce live i q l).*1 ⊆ l.*1.
Proof.
  unfold reduce. intros j. destruct (live (i, q)).
  - rewrite <- list_fmap_compose. intros Hj.
    apply list_elem_of_fmap in Hj as (e & -> & He). simpl.
    destruct (Nat.eqb_spec e.1 i) as [Heq|Hne]; simpl.
    + rewrite <- Heq. apply list_elem_of_fmap. eauto.
    + apply list_elem_of_fmap. eauto.
  - intros Hj. apply list_elem_of_fmap in Hj as (e & -> & He).
    apply elem_of_bfilter in He as [He _]. apply list_elem_of_fmap. eauto.
Qed.

Lemma reduce_keys_NoDup live i q l : NoDup l.*1 -> NoDup (reduce live i q l).*1.
Proof.
  unfold reduce. destruct (live (i, q)); [|apply bfilter_keys_NoDup].
  rewrite <- list_fmap_compose.
  assert (((fun e : nat * Q => if (e.1 =? i)%nat then (i, q) else e) <$> l).*1 = l.*1)
    as Heq.
  { induction l as [|e l IH]; simpl; [done|]. f_equal; [|done].
    destruct (Nat.eqb_spec e.1 i); simpl; congruence. }
  rewrite list_fmap_compose, Heq. done.
Qed.

Lemma reduce_length live i q l :
  (length (reduce live i q l) <= length l)%nat.
Proof.
  unfold reduce. destruct (live (i, q)).
  - by rewrite length_fmap.
  - apply bfilter_length_le.
Qed.

Lemma reduce_length_dropped live i q l :
  live (i, q) = false -> i ∈ l.*1 ->
  (length (reduce live i q l) < length l)%nat.
Proof.
  intros Hl Hi. unfold reduce. rewrite Hl.
  apply list_elem_of_fmap in Hi as (e & -> & He).
  apply (bfilter_length_lt _ _ e He). by rewrite Nat.eqb_refl.
Qed.

(** An entry after the reduction is an untouched entry of another member,
    or the reduced entry, which is live. *)
Lemma reduce_elem live i q l j a :
  (j, a) ∈ reduce live i q l ->
  (j <> i /\ (j, a) ∈ l) \/ (j = i /\ a = q /\ live (i, q) = true).
Proof.
  unfold reduce. destruct (live (i, q)) eqn:Hl.
  - intros H. apply list_elem_of_fmap in H as (e & He & Hin).
    destruct (Nat.eqb_spec e.1 i) as [Heq|Hne].
    + inversion He; subst. by right.
    + subst e. left. done.
  - intros H. apply elem_of_bfilter in H as [Hin Hne]. simpl in Hne.
    destruct (Nat.eqb_spec j i); [discriminate|]. by left.
Qed.

Lemma reduce_other live i q l j a :
  (j, a) ∈ l -> j <> i -> (j, a) ∈ reduce live i q l.
Proof.
  intros Hin Hne. unfold reduce. destruct (live (i, q)).
  - apply list_elem_of_fmap. exists (j, a). split; [|done]. simpl.
    by destruct (Nat.eqb_spec j i).
  - apply elem_of_bfilter. split; [done|]. simpl.
    by destruct (Nat.eqb_spec j i).
Qed.

Lemma reduce_kept live i q l a :
  (i, a) ∈ l -> live (i, q) = true -> (i, q) ∈ reduce live i q l.
Proof.
  intros Hin Hl. unfold reduce. rewrite Hl.
  apply list_elem_of_fmap. exists (i, a). split; [|done]. simpl.
  by rewrite Nat.eqb_refl.
Qed.

Lemma reduce_dropped live i q l :
  live (i, q) = false -> i ∉ (reduce live i q l).*1.
Proof.
  intros Hl Hin. unfold reduce in Hin. rewrite Hl in Hin.
  apply list_elem_of_fmap in Hin as (e & -> & He).
  apply elem_of_bfilter in He as [_ He]. by rewrite Nat.eqb_refl in He.
Qed.
End SettlementFacts.

Section SettlementLoop.
Import Settlement.
#[local] Open Scope Q_scope.

Variable tol : Q.
Hypothesis tol_nonneg : 0 <= tol.

Lemma keys_unique (l : list (nat * Q)) j a b :
  NoDup l.*1 -> (j, a) ∈ l -> (j, b) ∈ l -> a = b.
Proof.
  induction l as [|[k c] l IH]; simpl; [by rewrite elem_of_nil|].
  rewrite NoDup_cons, !elem_of_cons. intros [Hk Hl] [Ha|Ha] [Hb|Hb].
  - congruence.
  - inversion Ha; subst. exfalso. apply Hk. apply list_elem_of_fmap.
    by exists (k, b).
  - inversion Hb; subst. exfalso. apply Hk. apply list_elem_of_fmap.
    by exists (k, a).
  - by apply IH.
Qed.

Lemma key_of (l : list (nat * Q)) j a : (j, a) ∈ l -> j ∈ l.*1.
Proof. intros H. apply list_elem_of_fmap. by exists (j, a). Qed.

Lemma net_cons t ts i : net (t :: ts) i = flow t i + net ts i.
Proof. reflexivity. Qed.

Lemma flow_to t : from t <> to t -> flow t (to t) == - amount t.
Proof.
  intros H. unfold flow. rewrite Nat.eqb_refl.
  destruct (Nat.eqb_spec (from t) (to t)); [done|]. lra.
Qed.

Lemma flow_from t : from t <> to t -> flow t (from t) == amount t.
Proof.
  intros H. unfold flow. rewrite Nat.eqb_refl.
  destruct (Nat.eqb_spec (to t) (from t)); [congruence|]. lra.
Qed.

Lemma flow_other t i : i <> from t -> i <> to t -> flow t i == 0.
Proof.
  intros H1 H2. unfold flow.
  destruct (Nat.eqb_spec (from t) i); [congruence|].
  destruct (Nat.eqb_spec (to t) i); [congruence|]. lra.
Qed.

(** A member outside both sides takes part in no transfer. *)
Lemma net_outside (C D : list nat) ts i :
  Forall (fun t => 0 < amount t /\ from t ∈ D /\ to t ∈ C) ts ->
  i ∉ C -> i ∉ D -> net ts i == 0.
Proof.
  intros Hts HC HD. induction Hts as [|t ts (_ & Hf & Ht) _ IH]; simpl; [lra|].
  rewrite (flow_other t i); [lra| |]; intros ->; contradiction.
Qed.

(** What one round does. *)
Lemma settle_round_inv cs ds t cs' ds' :
  well_formed tol cs ds ->
  settle_round tol cs ds = Some (t, cs', ds') ->
  exists c d,
    (to t, c) ∈ cs /\ (from t, d) ∈ ds /\ from t <> to t /\
    0 < amount t /\ amount t <= c /\ amount t <= - d /\
    (amount t == c \/ amount t == - d) /\
    cs' = reduce (is_creditor tol) (to t) (c - amount t) cs /\
    ds' = reduce (is_debtor tol) (from t) (d + amount t) ds.
Proof.
  intros (Hnd & Hcs & Hds). unfold settle_round.
  destruct (best before_creditor cs) as [[ci ca]|] eqn:Hc; [|discriminate].
  destruct (best before_debtor ds) as [[di da]|] eqn:Hd; [|discriminate].
  apply best_elem in Hc, Hd. simpl. intros H. inversion H; subst; clear H.
  simpl. exists ca, da.
  pose proof (Hcs _ _ Hc). pose proof (Hds _ _ Hd).
  split; [done|]. split; [done|]. split.
  { intros ->. apply NoDup_app in Hnd as (_ & Hdisj & _).
    apply (Hdisj ci); eauto using key_of. }
  destruct (Qle_bool ca (- da)) eqn:Hle;
    [apply Qle_bool_true in Hle|apply Qle_bool_false in Hle];
    repeat split; try lra; auto; try (left; lra); right; lra.
Qed.

Lemma settle_round_None cs ds :
  settle_round tol cs ds = None -> cs = [] \/ ds = [].
Proof.
  unfold settle_round.
  destruct (best before_creditor cs) eqn:Hc.
  - destruct (best before_debtor ds) eqn:Hd; [discriminate|].
    intros _. right. by apply best_None in Hd.
  - intros _. left. by apply best_None in Hc.
Qed.

Lemma reduce_well_formed cs ds ci di c d :
  well_formed tol cs ds ->
  well_formed tol (reduce (is_creditor tol) ci c cs)
                  (reduce (is_debtor tol) di d ds).
Proof.
  intros (Hnd & Hcs & Hds). apply NoDup_app in Hnd as (Hn1 & Hdisj & Hn2).
  split; [|split].
  - apply NoDup_app. split; [by apply reduce_keys_NoDup|].
    split; [|by apply reduce_keys_NoDup].
    intros j Hj Hj'. apply reduce_keys in Hj, Hj'. by apply (Hdisj j).
  - intros j a Hin. apply reduce_elem in Hin as [[_ Hin]|(-> & -> & Hl)];
      [eauto|]. by apply is_creditor_true in Hl.
  - intros j a Hin. apply reduce_elem in Hin as [[_ Hin]|(-> & -> & Hl)];
      [eauto|]. by apply is_debtor_true in Hl.
Qed.

(** Each round drops at least one party. *)
Lemma settle_round_shrinks cs ds t cs' ds' :
  well_formed tol cs ds ->
  settle_round tol cs ds = Some (t, cs', ds') ->
  (length cs' + length ds' < length cs + length ds)%nat.
Proof.
  intros Hwf Hr.
  destruct (settle_round_inv _ _ _ _ _ Hwf Hr)
    as (c & d & Hc & Hd & Hne & Hpos & Hle1 & Hle2 & Hmin & -> & ->).
  pose proof (reduce_length (is_creditor tol) (to t) (c - amount t) cs).
  pose proof (reduce_length (is_debtor tol) (from t) (d + amount t) ds).
  destruct Hmin as [Hm|Hm].
  - assert (is_creditor tol (to t, c - amount t) = false) as Hdrop.
    { destruct (is_creditor tol _) eqn:E; [|done].
      apply is_creditor_true in E. simpl in E. lra. }
    pose proof (reduce_length_dropped _ _ _ cs Hdrop (key_of _ _ _ Hc)). lia.
  - assert (is_debtor tol (from t, d + amount t) = false) as Hdrop.
    { destruct (is_debtor tol _) eqn:E; [|done].
      apply is_debtor_true in E. simpl in E. lra. }
    pose proof (reduce_length_dropped _ _ _ ds Hdrop (key_of _ _ _ Hd)). lia.
Qed.
(** The loop ends within its fuel, and what its transfers do to the two
    sides: creditors only receive and never more than they are owed,
    debtors only pay and never more than they owe, and at the end one of
    the sides has no balance beyond the tolerance left. *)
Lemma settle_spec fuel : forall cs ds,
  well_formed tol cs ds ->
  (length cs + length ds <= fuel)%nat ->
  exists ts,
    settle fuel tol cs ds = Some ts /\
    (length ts <= Nat.pred (length cs + length ds))%nat /\
    Forall (fun t => 0 < amount t /\ from t ∈ ds.*1 /\ to t ∈ cs.*1) ts /\
    (forall j a, (j, a) ∈ cs -> 0 <= a + net ts j /\ net ts j <= 0) /\
    (forall j a, (j, a) ∈ ds -> a + net ts j <= 0 /\ 0 <= net ts j) /\
    ((forall j a, (j, a) ∈ cs -> a + net ts j <= tol) \/
     (forall j a, (j, a) ∈ ds -> - tol <= a + net ts j)).
Proof.
  induction fuel as [|fuel IH]; intros cs ds Hwf Hfuel.
  - assert (settle_round tol cs ds = None) as Hr.
    { destruct (settle_round tol cs ds) as [[[t cs'] ds']|] eqn:Hr; [|done].
      apply settle_round_shrinks in Hr; [lia|done]. }
    exists []. simpl. rewrite Hr. destruct Hwf as (_ & Hcs & Hds).
    split; [done|]. split; [lia|]. split; [constructor|].
    split; [intros j a Hin; specialize (Hcs _ _ Hin); simpl; lra|].
    split; [intros j a Hin; specialize (Hds _ _ Hin); simpl; lra|].
    apply settle_round_None in Hr as [-> | ->];
      [left|right]; intros j a Hin; by apply elem_of_nil in Hin.
  - simpl. destruct (settle_round tol cs ds) as [[[t cs'] ds']|] eqn:Hr.
    2:{ exists []. destruct Hwf as (_ & Hcs & Hds).
        split; [done|]. split; [simpl; lia|]. split; [constructor|].
        split; [intros j a Hin; specialize (Hcs _ _ Hin); simpl; lra|].
        split; [intros j a Hin; specialize (Hds _ _ Hin); simpl; lra|].
        apply settle_round_None in Hr as [-> | ->];
          [left|right]; intros j a Hin; by apply elem_of_nil in Hin. }
    pose proof (settle_round_shrinks _ _ _ _ _ Hwf Hr) as Hshrink.
    destruct (settle_round_inv _ _ _ _ _ Hwf Hr)
      as (c & d & Hc & Hd & Hne & Hpos & Hle1 & Hle2 & _ & -> & ->).
    pose proof (reduce_well_formed cs ds (to t) (from t)
                  (c - amount t) (d + amount t) Hwf) as Hwf'.
    destruct (IH _ _ Hwf' ltac:(lia))
      as (ts & Hts & Hlen & Hall & Hcs' & Hds' & Hend).
    destruct Hwf as (Hnd & Hcs & Hds).
    apply NoDup_app in Hnd as (Hn1 & Hdisj & Hn2).
    assert (Forall (fun t => 0 < amount t /\ from t ∈ ds.*1 /\ to t ∈ cs.*1) ts)
      as Hall0.
    { eapply Forall_impl; [exact Hall|]. intros t' (? & Hf & Ht).
      apply reduce_keys in Hf, Ht. done. }
    (* the creditor of the round *)
    assert (forall a, (to t, a) ∈ cs ->
              0 <= a + net (t :: ts) (to t) /\ net (t :: ts) (to t) <= 0 /\
              ((forall j a', (j, a') ∈ reduce (is_creditor tol) (to t) (c - amount t) cs ->
                  a' + net ts j <= tol) ->
               a + net (t :: ts) (to t) <= tol)) as Hcred.
    { intros a Ha. rewrite (keys_unique cs _ _ _ Hn1 Ha Hc). clear a Ha.
      rewrite net_cons. pose proof (flow_to t Hne) as Hfl.
      destruct (is_creditor tol (to t, c - amount t)) eqn:Hlive.
      - pose proof (reduce_kept _ _ _ _ _ Hc Hlive) as Hin.
        destruct (Hcs' _ _ Hin). split; [lra|]. split; [lra|].
        intros Hle. specialize (Hle _ _ Hin). lra.
      - assert (net ts (to t) == 0) as Hz.
        { eapply net_outside; [exact Hall| |].
          - by apply reduce_dropped.
          - intros Hin. apply reduce_keys in Hin.
            apply (Hdisj (to t)); eauto using key_of. }
        assert (c - amount t <= tol) as Hsmall.
        { destruct (Qlt_le_dec tol (c - amount t)) as [Hlt|]; [|done].
          apply (is_creditor_true tol (to t, c - amount t)) in Hlt. congruence. }
        split; [lra|]. split; [lra|]. intros _. lra. }
    (* the debtor of the round *)
    assert (forall a, (from t, a) ∈ ds ->
              a + net (t :: ts) (from t) <= 0 /\ 0 <= net (t :: ts) (from t) /\
              ((forall j a', (j, a') ∈ reduce (is_debtor tol) (from t) (d + amount t) ds ->
                  - tol <= a' + net ts j) ->
               - tol <= a + net (t :: ts) (from t))) as Hdebt.
    { intros a Ha. rewrite (keys_unique ds _ _ _ Hn2 Ha Hd). clear a Ha.
      rewrite net_cons. pose proof (flow_from t Hne) as Hfl.
      destruct (is_debtor tol (from t, d + amount t)) eqn:Hlive.
      - pose proof (reduce_kept _ _ _ _ _ Hd Hlive) as Hin.
        destruct (Hds' _ _ Hin). split; [lra|]. split; [lra|].
        intros Hle. specialize (Hle _ _ Hin). lra.
      - assert (net ts (from t) == 0) as Hz.
        { eapply net_outside; [exact Hall| |].
          - intros Hin. apply reduce_keys in Hin.
            apply (Hdisj (from t)); eauto using key_of.
          - by apply reduce_dropped. }
        assert (- tol <= d + amount t) as Hsmall.
        { destruct (Qlt_le_dec (d + amount t) (- tol)) as [Hlt|]; [|done].
          apply (is_debtor_true tol (from t, d + amount t)) in Hlt. congruence. }
        split; [lra|]. split; [lra|]. intros _. lra. }
    (* the other members of the two sides *)
    assert (forall j, j <> to t -> j <> from t ->
              net (t :: ts) j == net ts j) as Hrest.
    { intros j H1 H2. rewrite net_cons, (flow_other t j); [lra|done|done]. }
    assert (forall j a, (j, a) ∈ cs -> j <> from t) as Hcs_ne.
    { intros j a Hin ->. apply (Hdisj (from t)); eauto using key_of. }
    assert (forall j a, (j, a) ∈ ds -> j <> to t) as Hds_ne.
    { intros j a Hin ->. apply (Hdisj (to t)); eauto using key_of. }
    assert (1 <= length cs /\ 1 <= length ds)%nat as [Hc1 Hd1].
    { destruct cs, ds; simpl; try lia;
        (by apply elem_of_nil in Hc) || (by apply elem_of_nil in Hd). }
    exists (t :: ts). rewrite Hts. split; [done|].
    split; [simpl; lia|].
    split; [constructor; [eauto using key_of|done]|].
    split; [|split].
    + intros j a Hin. destruct (decide (j = to t)) as [->|Hj].
      * destruct (Hcred _ Hin) as (? & ? & _). done.
      * rewrite (Hrest j Hj (Hcs_ne _ _ Hin)).
        apply Hcs'. by apply reduce_other.
    + intros j a Hin. destruct (decide (j = from t)) as [->|Hj].
      * destruct (Hdebt _ Hin) as (? & ? & _). done.
      * rewrite (Hrest j (Hds_ne _ _ Hin) Hj).
        apply Hds'. by apply reduce_other.
    + destruct Hend as [Hend|Hend]; [left|right]; intros j a Hin.
      * destruct (decide (j = to t)) as [->|Hj].
        -- destruct (Hcred _ Hin) as (_ & _ & Hle). by apply Hle.
        -- rewrite (Hrest j Hj (Hcs_ne _ _ Hin)).
           apply Hend. by apply reduce_other.
      * destruct (decide (j = from t)) as [->|Hj].
        -- destruct (Hdebt _ Hin) as (_ & _ & Hle). by apply Hle.
        -- rewrite (Hrest j (Hds_ne _ _ Hin) Hj).
           apply Hend. by apply reduce_other.
Qed.
End SettlementLoop.

Section Sums.
Import Settlement.
#[local] Open Scope Q_scope.

Context {A : Type}.
Implicit Types (f g : A -> Q) (l : list A).

Lemma sum_over_cons f x l : sum_over f (x :: l) = f x + sum_over f l.
Proof. reflexivity. Qed.

Lemma sum_over_ext f g l :
  (forall x, x ∈ l -> f x == g x) -> sum_over f l == sum_over g l.
Proof.
  induction l as [|x l IH]; intros H; [reflexivity|].
  rewrite !sum_over_cons.
  rewrite (H x) by apply list_elem_of_here.
  rewrite IH; [reflexivity|]. intros y Hy. apply H. by apply list_elem_of_further.
Qed.

Lemma sum_over_le f g l :
  (forall x, x ∈ l -> f x <= g x) -> sum_over f l <= sum_over g l.
Proof.
  induction l as [|x l IH]; intros H; [apply Qle_refl|].
  rewrite !sum_over_cons.
  pose proof (H x (list_elem_of_here _ _)).
  assert (sum_over f l <= sum_over g l).
  { apply IH. intros y Hy. apply H. by apply list_elem_of_further. }
  lra.
Qed.

Lemma sum_over_plus f g l :
  sum_over (fun x => f x + g x) l == sum_over f l + sum_over g l.
Proof.
  induction l as [|x l IH]; [unfold sum_over; cbn [foldr]; lra|].
  rewrite !sum_over_cons, IH. lra.
Qed.

Lemma sum_over_opp f l : sum_over (fun x => - f x) l == - sum_over f l.
Proof.
  induction l as [|x l IH]; [unfold sum_over; cbn [foldr]; lra|].
  rewrite !sum_over_cons, IH. lra.
Qed.

Lemma sum_over_zero l : sum_over (fun _ : A => 0) l == 0.
Proof.
  induction l as [|x l IH]; [reflexivity|]. rewrite sum_over_cons, IH. lra.
Qed.

Lemma sum_over_const (c : Q) l :
  sum_over (fun _ : A => c) l == inject_Z (Z.of_nat (length l)) * c.
Proof.
  induction l as [|x l IH].
  { unfold sum_over. cbn [foldr length]. change (Z.of_nat 0) with 0%Z.
    unfold inject_Z. lra. }
  rewrite sum_over_cons, IH. cbn [length]. rewrite Nat2Z.inj_succ.
  unfold Z.succ. rewrite inject_Z_plus. change (inject_Z 1) with 1. ring.
Qed.

Lemma sum_over_perm f l l' : l ≡ₚ l' -> sum_over f l == sum_over f l'.
Proof.
  induction 1 as [|x l l' _ IH|x y l|l l' l'' _ IH1 _ IH2].
  - reflexivity.
  - rewrite !sum_over_cons, IH. reflexivity.
  - rewrite !sum_over_cons. lra.
  - rewrite IH1. exact IH2.
Qed.

Lemma sum_over_filter f (p : A -> bool) l :
  sum_over f (List.filter p l) == sum_over (fun x => if p x then f x else 0) l.
Proof.
  induction l as [|x l IH]; [reflexivity|]. cbn [List.filter].
  rewrite (sum_over_cons _ x l).
  destruct (p x); [rewrite sum_over_cons|]; rewrite IH; lra.
Qed.

Lemma sum_over_nonneg f l :
  (forall x, x ∈ l -> 0 <= f x) -> 0 <= sum_over f l.
Proof.
  intros H. rewrite <- (sum_over_zero l). by apply sum_over_le.
Qed.

Lemma sum_over_pos f l :
  l <> [] -> (forall x, x ∈ l -> 0 < f x) -> 0 < sum_over f l.
Proof.
  destruct l as [|x l]; [done|]. intros _ H. rewrite sum_over_cons.
  pose proof (H x (list_elem_of_here _ _)).
  assert (0 <= sum_over f l).
  { apply sum_over_nonneg. intros y Hy.
    apply Qlt_le_weak, H. by apply list_elem_of_further. }
  lra.
Qed.

(** Some term is not positive, or all are. *)
Lemma nonpos_or_all_pos f l :
  (exists x, x ∈ l /\ f x <= 0) \/ (forall x, x ∈ l -> 0 < f x).
Proof.
  induction l as [|x l [(y & Hy & Hle)|IH]].
  - right. intros x Hx. by apply elem_of_nil in Hx.
  - left. exists y. split; [by apply list_elem_of_further|done].
  - destruct (Qlt_le_dec 0 (f x)) as [Hlt|Hle].
    + right. intros y Hy. apply elem_of_cons in Hy as [->|Hy]; auto.
    + left. exists x. split; [apply list_elem_of_here|done].
Qed.

(** With every term at most [c] and one term at most 0, the sum is at
    most [c] times the number of the other terms. *)
Lemma sum_over_slack f (c : Q) l x :
  0 <= c -> (forall y, y ∈ l -> f y <= c) -> x ∈ l -> f x <= 0 ->
  sum_over f l <= slack c (length l).
Proof.
  intros Hc Hall Hx Hfx.
  apply elem_of_Permutation in Hx as [l' Hp].
  rewrite (sum_over_perm f _ _ Hp), sum_over_cons.
  rewrite (Permutation_length Hp). unfold slack. cbn [length Nat.pred].
  rewrite <- (sum_over_const c l').
  assert (sum_over f l' <= sum_over (fun _ => c) l').
  { apply sum_over_le. intros y Hy. apply Hall. rewrite Hp.
    by apply list_elem_of_further. }
  lra.
Qed.

(** In a sum that is zero with every term at most [c], no term is below
    the opposite of [c] times the number of the other terms. *)
Lemma zero_sum_lower f (c : Q) l x :
  sum_over f l == 0 -> (forall y, y ∈ l -> f y <= c) -> x ∈ l ->
  - slack c (length l) <= f x.
Proof.
  intros Hz Hall Hx.
  apply elem_of_Permutation in Hx as [l' Hp].
  rewrite (sum_over_perm f _ _ Hp), sum_over_cons in Hz.
  rewrite (Permutation_length Hp). unfold slack. cbn [length Nat.pred].
  rewrite <- (sum_over_const c l').
  assert (sum_over f l' <= sum_over (fun _ => c) l').
  { apply sum_over_le. intros y Hy. apply Hall. rewrite Hp.
    by apply list_elem_of_further. }
  lra.
Qed.
End Sums.

Section SettlementFlows.
Import Settlement.
#[local] Open Scope Q_scope.

Implicit Types (l : list (nat * Q)) (ts : list Transfer).

Lemma sum_indicator_out (k : nat) (a : Q) l :
  k ∉ l.*1 -> sum_over (fun e => if (k =? e.1)%nat then a else 0) l == 0.
Proof.
  intros Hk. rewrite <- (sum_over_zero l). apply sum_over_ext.
  intros e He. destruct (Nat.eqb_spec k e.1) as [->|]; [|reflexivity].
  exfalso. apply Hk. apply list_elem_of_fmap. eauto.
Qed.

Lemma sum_indicator_in (k : nat) (a : Q) l :
  NoDup l.*1 -> k ∈ l.*1 ->
  sum_over (fun e => if (k =? e.1)%nat then a else 0) l == a.
Proof.
  induction l as [|e l IH]; cbn [fmap list_fmap]; [by rewrite elem_of_nil|].
  rewrite NoDup_cons, elem_of_cons. intros [He Hl] Hk. rewrite sum_over_cons.
  destruct (Nat.eqb_spec k e.1) as [->|Hne].
  - rewrite (sum_indicator_out _ _ _ He). lra.
  - destruct Hk as [Hk|Hk]; [done|]. rewrite (IH Hl Hk). lra.
Qed.

Lemma sum_flow t l :
  sum_over (fun e => flow t e.1) l
  == sum_over (fun e => if (from t =? e.1)%nat then amount t else 0) l
     - sum_over (fun e => if (to t =? e.1)%nat then amount t else 0) l.
Proof.
  unfold flow. induction l as [|e l IH]; [unfold sum_over; cbn [foldr]; lra|].
  rewrite !sum_over_cons, IH. lra.
Qed.

Lemma sum_net ts l :
  sum_over (fun e => net ts e.1) l
  == sum_over (fun t => sum_over (fun e => flow t e.1) l) ts.
Proof.
  induction ts as [|t ts IH].
  - unfold net. cbn [sum_over foldr]. apply sum_over_zero.
  - rewrite sum_over_cons, <- IH, <- sum_over_plus. reflexivity.
Qed.

(** Transfers among the members of [l] leave the sum of [l] unchanged. *)
Lemma sum_net_inside ts l :
  NoDup l.*1 ->
  Forall (fun t => from t ∈ l.*1 /\ to t ∈ l.*1) ts ->
  sum_over (fun e => net ts e.1) l == 0.
Proof.
  intros Hnd Hts. rewrite sum_net, <- (sum_over_zero ts).
  apply sum_over_ext. intros t Ht.
  rewrite Forall_forall in Hts. destruct (Hts t Ht) as [Hf Hto].
  rewrite sum_flow, !sum_indicator_in by done. lra.
Qed.

(** Transfers into the members of [l] from outside take from the sum of
    [l] what they move. *)
Lemma sum_net_received ts l :
  NoDup l.*1 ->
  Forall (fun t => (from t ∉ l.*1) /\ to t ∈ l.*1) ts ->
  sum_over (fun e => net ts e.1) l == - transferred ts.
Proof.
  intros Hnd Hts. unfold transferred.
  rewrite sum_net, <- sum_over_opp.
  apply sum_over_ext. intros t Ht.
  rewrite Forall_forall in Hts. destruct (Hts t Ht) as [Hf Hto].
  rewrite sum_flow, (sum_indicator_in (to t)), (sum_indicator_out (from t))
    by done.
  lra.
Qed.

(** *** Applying transfers to the mapping *)

Lemma apply_transfer_lookup t (m : gmap nat Q) i :
  match apply_transfer t m !! i, m !! i with
  | Some b', Some b => b' == b + flow t i
  | None, None => True
  | _, _ => False
  end.
Proof.
  destruct t as [f o a]. unfold apply_transfer, flow. cbn [from to amount].
  rewrite lookup_alter. destruct (decide (f = i)) as [->|Hf].
  - rewrite lookup_alter, Nat.eqb_refl. destruct (decide (o = i)) as [->|Ho].
    + rewrite Nat.eqb_refl. destruct (m !! i); simpl; [lra|done].
    + destruct (Nat.eqb_spec o i); [done|]. destruct (m !! i); simpl; [lra|done].
  - rewrite lookup_alter. destruct (Nat.eqb_spec f i); [done|].
    destruct (decide (o = i)) as [->|Ho].
    + rewrite Nat.eqb_refl. destruct (m !! i); simpl; [lra|done].
    + destruct (Nat.eqb_spec o i); [done|]. destruct (m !! i); simpl; [lra|done].
Qed.

Lemma apply_transfers_lookup ts : forall (m : gmap nat Q) i,
  match apply_transfers ts m !! i, m !! i with
  | Some b', Some b => b' == b + net ts i
  | None, None => True
  | _, _ => False
  end.
Proof.
  induction ts as [|t ts IH]; intros m i.
  - unfold apply_transfers, net. cbn [foldl sum_over foldr].
    destruct (m !! i); [lra|done].
  - change (apply_transfers (t :: ts) m)
      with (apply_transfers ts (apply_transfer t m)).
    specialize (IH (apply_transfer t m) i).
    pose proof (apply_transfer_lookup t m i) as Ht.
    destruct (apply_transfers ts (apply_transfer t m) !! i) as [b''|],
             (apply_transfer t m !! i) as [b'|], (m !! i) as [b|]; try done.
    rewrite net_cons. lra.
Qed.
End SettlementFlows.

(** *** The result does not depend on the order of the entries *)

Section Ranking.
Import Settlement.
#[local] Open Scope Q_scope.

Variable before : nat * Q -> nat * Q -> bool.
Hypothesis before_total : forall x y, before x y = true \/ before y x = true.
Hypothesis before_trans :
  forall x y z, before x y = true -> before y z = true -> before x z = true.
Hypothesis before_key :
  forall x y, before x y = true -> before y x = true -> x.1 = y.1.

(** The selected entry comes before every entry of the list. *)
Lemma best_first l x :
  best before l = Some x -> forall y, y ∈ l -> before x y = true.
Proof.
  revert x. induction l as [|y0 l IH]; intros x; [discriminate|].
  cbn [best]. destruct (best before l) as [z|] eqn:Hz.
  - intros H y Hy. inversion H; subst; clear H.
    specialize (IH z eq_refl).
    destruct (before y0 z) eqn:Hb; apply elem_of_cons in Hy as [->|Hy].
    + by destruct (before_total y0 y0).
    + apply (before_trans _ z); auto.
    + destruct (before_total z y0); [done|congruence].
    + auto.
  - apply best_None in Hz as ->. intros H y Hy. inversion H; subst.
    apply list_elem_of_singleton in Hy as ->. by destruct (before_total x x).
Qed.

Lemma best_perm l l' :
  NoDup l.*1 -> l ≡ₚ l' -> best before l = best before l'.
Proof.
  intros Hnd Hp.
  destruct (best before l) as [x|] eqn:Hx, (best before l') as [x'|] eqn:Hx'.
  - pose proof (best_elem _ _ _ Hx) as Hin.
    pose proof (best_elem _ _ _ Hx') as Hin'.
    rewrite <- Hp in Hin'. 
    assert (x.1 = x'.1) as Hk.
    { apply before_key.
      - by apply (best_first l).
      - apply (best_first l'); [done|]. by rewrite <- Hp. }
    destruct x as [j a], x' as [j' a']. simpl in Hk. subst j'.
    f_equal. f_equal. by apply (keys_unique l j).
  - apply best_None in Hx'. subst l'. apply Permutation_nil_r in Hp. subst l.
    discriminate.
  - apply best_None in Hx. subst l. apply Permutation_nil in Hp. subst l'.
    discriminate.
  - done.
Qed.
End Ranking.

Section SettlementOrder.
Import Settlement.
#[local] Open Scope Q_scope.

Lemma before_creditor_spec x y :
  before_creditor x y = true <-> y.2 < x.2 \/ (x.2 == y.2 /\ (x.1 <= y.1)%nat).
Proof.
  unfold before_creditor.
  destruct (Qle_bool x.2 y.2) eqn:H1;
    [apply Qle_bool_true in H1|apply Qle_bool_false in H1].
  - destruct (Qle_bool y.2 x.2) eqn:H2;
      [apply Qle_bool_true in H2|apply Qle_bool_false in H2]; simpl.
    + rewrite Nat.leb_le. split; [intros ?; right; split; [lra|done]|].
      intros [?|[_ ?]]; [lra|done].
    + split; [discriminate|]. intros [?|[? _]]; lra.
  - split; [intros _; by left|done].
Qed.

Lemma before_debtor_spec x y :
  before_debtor x y = true <-> x.2 < y.2 \/ (x.2 == y.2 /\ (x.1 <= y.1)%nat).
Proof.
  unfold before_debtor.
  destruct (Qle_bool y.2 x.2) eqn:H1;
    [apply Qle_bool_true in H1|apply Qle_bool_false in H1].
  - destruct (Qle_bool x.2 y.2) eqn:H2;
      [apply Qle_bool_true in H2|apply Qle_bool_false in H2]; simpl.
    + rewrite Nat.leb_le. split; [intros ?; right; split; [lra|done]|].
      intros [?|[_ ?]]; [lra|done].
    + split; [discriminate|]. intros [?|[? _]]; lra.
  - split; [intros _; by left|done].
Qed.

Lemma best_creditor_perm l l' :
  NoDup l.*1 -> l ≡ₚ l' -> best before_creditor l = best before_creditor l'.
Proof.
  apply best_perm.
  - intros x y. rewrite !before_creditor_spec.
    destruct (Qlt_le_dec y.2 x.2); [by left; left|].
    destruct (Qlt_le_dec x.2 y.2); [by right; left|].
    destruct (Nat.le_ge_cases x.1 y.1);
      [left|right]; right; (split; [lra|done]).
  - intros x y z. rewrite !before_creditor_spec.
    intros [?|[? ?]] [?|[? ?]]; (left; lra) || (right; split; [lra|lia]).
  - intros x y. rewrite !before_creditor_spec.
    intros [?|[? ?]] [?|[? ?]]; lra || lia.
Qed.

Lemma best_debtor_perm l l' :
  NoDup l.*1 -> l ≡ₚ l' -> best before_debtor l = best before_debtor l'.
Proof.
  apply best_perm.
  - intros x y. rewrite !before_debtor_spec.
    destruct (Qlt_le_dec x.2 y.2); [by left; left|].
    destruct (Qlt_le_dec y.2 x.2); [by right; left|].
    destruct (Nat.le_ge_cases x.1 y.1);
      [left|right]; right; (split; [lra|done]).
  - intros x y z. rewrite !before_debtor_spec.
    intros [?|[? ?]] [?|[? ?]]; (left; lra) || (right; split; [lra|lia]).
  - intros x y. rewrite !before_debtor_spec.
    intros [?|[? ?]] [?|[? ?]]; lra || lia.
Qed.

Lemma bfilter_perm {A} (f : A -> bool) (l l' : list A) :
  l ≡ₚ l' -> List.filter f l ≡ₚ List.filter f l'.
Proof.
  induction 1 as [|x l l' _ IH|x y l|l l' l'' _ IH1 _ IH2]; simpl.
  - done.
  - destruct (f x); [by constructor|done].
  - destruct (f x), (f y); try done. apply perm_swap.
  - by etrans.
Qed.

Lemma reduce_perm live i q (l l' : list (nat * Q)) :
  l ≡ₚ l' -> reduce live i q l ≡ₚ reduce live i q l'.
Proof.
  intros Hp. unfold reduce. destruct (live (i, q)).
  - by apply fmap_Permutation.
  - by apply bfilter_perm.
Qed.

Lemma settle_perm tol fuel : forall cs cs2 ds ds2,
  NoDup cs.*1 -> NoDup ds.*1 -> cs ≡ₚ cs2 -> ds ≡ₚ ds2 ->
  settle fuel tol cs ds = settle fuel tol cs2 ds2.
Proof.
  induction fuel as [|fuel IH]; intros cs cs2 ds ds2 Hc Hd Hpc Hpd;
    cbn [settle]; unfold settle_round;
    rewrite <- (best_creditor_perm cs cs2 Hc Hpc),
            <- (best_debtor_perm ds ds2 Hd Hpd);
    destruct (best before_creditor cs) as [c|]; [|done| |done];
    destruct (best before_debtor ds) as [d|]; try done.
  f_equal. apply IH.
  - by apply reduce_keys_NoDup.
  - by apply reduce_keys_NoDup.
  - by apply reduce_perm.
  - by apply reduce_perm.
Qed.

Lemma total_perm (l l' : list (nat * Q)) : l ≡ₚ l' -> total l == total l'.
Proof. apply sum_over_perm. Qed.

Lemma simplify_entries_perm tol (l l' : list (nat * Q)) :
  NoDup l.*1 -> l ≡ₚ l' -> simplify_entries tol l = simplify_entries tol l'.
Proof.
  intros Hnd Hp. unfold simplify_entries.
  assert (Qle_bool (Qabs (total l)) tol = Qle_bool (Qabs (total l')) tol) as ->.
  { apply Qleb_comp; [|reflexivity]. apply Qabs_wd. by apply total_perm. }
  destruct (Qle_bool (Qabs (total l')) tol); [|done].
  pose proof (bfilter_perm (is_creditor tol) _ _ Hp) as Hpc.
  pose proof (bfilter_perm (is_debtor tol) _ _ Hp) as Hpd.
  rewrite <- (Permutation_length Hpc), <- (Permutation_length Hpd).
  by rewrite (settle_perm tol _ _ _ _ _
                (bfilter_keys_NoDup _ _ Hnd) (bfilter_keys_NoDup _ _ Hnd) Hpc Hpd).
Qed.
End SettlementOrder.

(** *** What the transfers achieve *)

Section Slack.
Import Settlement.
#[local] Open Scope Q_scope.

Lemma slack_nonneg c n : 0 <= c -> 0 <= slack c n.
Proof.
  intros Hc. unfold slack. apply Qmult_le_0_compat; [|done].
  change 0 with (inject_Z 0). rewrite <- Zle_Qle. lia.
Qed.

Lemma slack_ge c n : 0 <= c -> (2 <= n)%nat -> c <= slack c n.
Proof.
  intros Hc Hn. unfold slack.
  assert (1 <= inject_Z (Z.of_nat (Nat.pred n))) as H1.
  { change 1 with (inject_Z 1). rewrite <- Zle_Qle. lia. }
  assert (0 <= (inject_Z (Z.of_nat (Nat.pred n)) - 1) * c) as H2.
  { apply Qmult_le_0_compat; lra. }
  lra.
Qed.

Context {A : Type}.
Implicit Types (f : A -> Q) (l : list A).

Lemma zero_sum_upper f (c : Q) l x :
  0 <= c -> sum_over f l == 0 -> (forall y, y ∈ l -> f y <= c) -> x ∈ l ->
  f x <= slack c (length l).
Proof.
  intros Hc Hz Hall Hx. destruct l as [|y [|z l]].
  - by apply elem_of_nil in Hx.
  - apply list_elem_of_singleton in Hx as ->.
    unfold sum_over in Hz. cbn [foldr] in Hz.
    pose proof (slack_nonneg c (length [y]) Hc). lra.
  - apply Qle_trans with c; [by apply Hall|].
    apply slack_ge; [done|]. simpl. lia.
Qed.

(** In a sum that is zero, with all terms on one side of the tolerance,
    every term is within the slack of zero. *)
Lemma zero_sum_abs f (c : Q) l x :
  0 <= c -> sum_over f l == 0 ->
  (forall y, y ∈ l -> f y <= c) \/ (forall y, y ∈ l -> - c <= f y) ->
  x ∈ l -> Qabs (f x) <= slack c (length l).
Proof.
  intros Hc Hz [Hall|Hall] Hx; apply Qabs_Qle_condition.
  - split; [by apply zero_sum_lower|by apply zero_sum_upper].
  - assert (sum_over (fun y => - f y) l == 0) as Hz'
      by (rewrite sum_over_opp; lra).
    assert (forall y, y ∈ l -> - f y <= c) as Hall'
      by (intros y Hy; specialize (Hall y Hy); lra).
    pose proof (zero_sum_lower (fun y => - f y) c l x Hz' Hall' Hx).
    pose proof (zero_sum_upper (fun y => - f y) c l x Hc Hz' Hall' Hx).
    simpl in *. split; lra.
Qed.
End Slack.

Section SettlementGuarantees.
Import Settlement.
#[local] Open Scope Q_scope.

Variable tol : Q.
Hypothesis tol_nonneg : 0 <= tol.

Lemma sides_exclusive e : is_creditor tol e = true -> is_debtor tol e = true -> False.
Proof. rewrite is_creditor_true, is_debtor_true. lra. Qed.

Lemma sides_length (l : list (nat * Q)) :
  (length (List.filter (is_creditor tol) l)
   + length (List.filter (is_debtor tol) l) <= length l)%nat.
Proof.
  induction l as [|e l IH]; simpl; [lia|].
  destruct (is_creditor tol e) eqn:Hc, (is_debtor tol e) eqn:Hd; simpl; try lia.
  destruct (sides_exclusive e Hc Hd).
Qed.

Lemma sides_well_formed (l : list (nat * Q)) :
  NoDup l.*1 ->
  well_formed tol (List.filter (is_creditor tol) l) (List.filter (is_debtor tol) l).
Proof.
  intros Hnd. split; [|split].
  - apply NoDup_app. split; [by apply bfilter_keys_NoDup|].
    split; [|by apply bfilter_keys_NoDup].
    intros j Hc Hd.
    apply list_elem_of_fmap in Hc as ([j1 a] & -> & Ha).
    apply list_elem_of_fmap in Hd as ([j2 b] & Hj & Hb). simpl in Hj. subst j2.
    apply elem_of_bfilter in Ha as [Ha Hca]. apply elem_of_bfilter in Hb as [Hb Hdb].
    rewrite (keys_unique l _ _ _ Hnd Ha Hb) in Hca.
    exact (sides_exclusive _ Hca Hdb).
  - intros j a Hin. apply elem_of_bfilter in Hin as [_ H].
    by apply is_creditor_true in H.
  - intros j a Hin. apply elem_of_bfilter in Hin as [_ H].
    by apply is_debtor_true in H.
Qed.

Lemma positive_part_cases e :
  (e.2 <= 0 /\ positive_part e = 0) \/ (0 < e.2 /\ positive_part e = e.2).
Proof.
  unfold positive_part. destruct (Qle_bool e.2 0) eqn:H;
    [apply Qle_bool_true in H; by left|apply Qle_bool_false in H; by right].
Qed.
(** The guarantees, on the entries of a zero-sum mapping. *)
Lemma simplify_entries_spec (l : list (nat * Q)) :
  NoDup l.*1 -> total l == 0 ->
  exists ts,
    simplify_entries tol l = Transfers ts /\
    (length ts <= Nat.pred (length l))%nat /\
    Forall (fun t => 0 < amount t /\ from t <> to t /\
                     from t ∈ l.*1 /\ to t ∈ l.*1) ts /\
    (forall e, e ∈ l -> Qabs (e.2 + net ts e.1) <= slack tol (length l)) /\
    0 <= owed l - transferred ts /\
    owed l - transferred ts <= slack tol (length l).
Proof.
  intros Hnd Hz.
  set (cs := List.filter (is_creditor tol) l).
  set (ds := List.filter (is_debtor tol) l).
  pose proof (sides_well_formed l Hnd) as Hwf. fold cs ds in Hwf.
  destruct (settle_spec tol tol_nonneg (length cs + length ds) cs ds Hwf (le_n _))
    as (ts & Hts & Hlen & Hall & Hcs & Hds & Hend).
  destruct Hwf as (Hndcd & _ & _).
  apply NoDup_app in Hndcd as (Hndc & Hdisj & Hndd).
  assert (cs.*1 ⊆ l.*1) as Hcl.
  { intros j Hj. apply list_elem_of_fmap in Hj as (e & -> & He).
    apply elem_of_bfilter in He as [He _]. apply list_elem_of_fmap. eauto. }
  assert (ds.*1 ⊆ l.*1) as Hdl.
  { intros j Hj. apply list_elem_of_fmap in Hj as (e & -> & He).
    apply elem_of_bfilter in He as [He _]. apply list_elem_of_fmap. eauto. }
  exists ts. split.
  { unfold simplify_entries.
    assert (Qle_bool (Qabs (total l)) tol = true) as ->.
    { apply Qle_bool_iff. rewrite Hz. exact tol_nonneg. }
    fold cs ds. by rewrite Hts. }
  split.
  { pose proof (sides_length l) as Hsl. fold cs ds in Hsl. lia. }
  split.
  { eapply Forall_impl; [exact Hall|]. intros t (Hpos & Hf & Ht).
    split; [done|]. split; [|split; auto].
    intros Heq. apply (Hdisj (to t)); [done|]. by rewrite <- Heq. }
  (* every entry: a creditor, a debtor, or within the tolerance *)
  set (G := fun e : nat * Q =>
              positive_part e + (if is_creditor tol e then net ts e.1 else 0)).
  assert (forall e, e ∈ l ->
            (tol < e.2 /\ 0 <= e.2 + net ts e.1 /\ net ts e.1 <= 0 /\
             G e == e.2 + net ts e.1) \/
            (e.2 < - tol /\ e.2 + net ts e.1 <= 0 /\ 0 <= net ts e.1 /\ G e == 0) \/
            (- tol <= e.2 /\ e.2 <= tol /\ net ts e.1 == 0 /\
             ((e.2 <= 0 /\ G e == 0) \/ (0 < e.2 /\ G e == e.2)))) as Hcases.
  { intros [j a] He. unfold G. simpl.
    destruct (is_creditor tol (j, a)) eqn:Hc.
    - left. assert ((j, a) ∈ cs) as Hin by (apply elem_of_bfilter; done).
      apply is_creditor_true in Hc. simpl in Hc.
      destruct (Hcs _ _ Hin).
      destruct (positive_part_cases (j, a)) as [[? ->]|[? ->]]; simpl in *;
        repeat split; lra.
    - assert (a <= tol) as Hle.
      { destruct (Qlt_le_dec tol a) as [Hlt|]; [|done].
        apply (is_creditor_true tol (j, a)) in Hlt. congruence. }
      destruct (is_debtor tol (j, a)) eqn:Hd.
      + right; left. assert ((j, a) ∈ ds) as Hin by (apply elem_of_bfilter; done).
        apply is_debtor_true in Hd. simpl in Hd.
        destruct (Hds _ _ Hin).
        destruct (positive_part_cases (j, a)) as [[? ->]|[? ->]]; simpl in *;
          repeat split; lra.
      + right; right.
        assert (- tol <= a) as Hge.
        { destruct (Qlt_le_dec a (- tol)) as [Hlt|]; [|done].
          apply (is_debtor_true tol (j, a)) in Hlt. congruence. }
        assert (net ts j == 0) as Hn.
        { eapply net_outside; [exact Hall| |].
          - intros Hin. apply list_elem_of_fmap in Hin as ([j' a'] & Hj & Hin).
            simpl in Hj. subst j'. apply elem_of_bfilter in Hin as [Hin Hc'].
            rewrite (keys_unique l _ _ _ Hnd Hin He) in Hc'. congruence.
          - intros Hin. apply list_elem_of_fmap in Hin as ([j' a'] & Hj & Hin).
            simpl in Hj. subst j'. apply elem_of_bfilter in Hin as [Hin Hd'].
            rewrite (keys_unique l _ _ _ Hnd Hin He) in Hd'. congruence. }
        split; [done|]. split; [done|]. split; [done|].
        destruct (positive_part_cases (j, a)) as [[? ->]|[? ->]]; simpl in *;
          [left|right]; split; lra. }
  assert (sum_over (fun e => e.2 + net ts e.1) l == 0) as Hsum.
  { rewrite sum_over_plus. fold (total l). rewrite Hz.
    rewrite sum_net_inside; [lra|done|].
    eapply Forall_impl; [exact Hall|]. intros t (_ & Hf & Ht). auto. }
  assert ((forall e, e ∈ l -> e.2 + net ts e.1 <= tol) \/
          (forall e, e ∈ l -> - tol <= e.2 + net ts e.1)) as Hside.
  { destruct Hend as [Hend|Hend]; [left|right]; intros [j a] He;
      destruct (Hcases _ He) as [H|[H|H]]; simpl in *; try lra.
    - apply (Hend j a). apply elem_of_bfilter. split; [done|].
      apply is_creditor_true. simpl. lra.
    - apply (Hend j a). apply elem_of_bfilter. split; [done|].
      apply is_debtor_true. simpl. lra. }
  split.
  { intros e He.
    exact (zero_sum_abs (fun e => e.2 + net ts e.1) tol l e tol_nonneg Hsum Hside He). }
  assert (owed l - transferred ts == sum_over G l) as HG.
  { unfold G. rewrite sum_over_plus. fold (owed l).
    rewrite <- (sum_over_filter (fun e => net ts e.1) (is_creditor tol) l).
    fold cs. rewrite (sum_net_received ts cs Hndc); [lra|].
    eapply Forall_impl; [exact Hall|]. intros t (_ & Hf & Ht).
    split; [|done]. intros Hin. by apply (Hdisj (from t)). }
  rewrite HG. split.
  { apply sum_over_nonneg. intros e He.
    destruct (Hcases _ He) as [H|[H|H]]; lra. }
  assert (l = [] \/ l <> []) as [Hnil|Hne] by (destruct l; [left|right]; done).
  { rewrite Hnil. pose proof (slack_nonneg tol (length (@nil (nat * Q))) tol_nonneg).
    unfold sum_over. cbn [foldr]. done. }
  destruct Hside as [Hside|Hside].
  - destruct (nonpos_or_all_pos snd l) as [(x & Hx & Hle)|Hpos].
    + apply (sum_over_slack G tol l x tol_nonneg); [|done|].
      * intros e He. specialize (Hside e He).
        destruct (Hcases _ He) as [H|[H|H]]; lra.
      * destruct (Hcases _ Hx) as [H|[H|H]]; lra.
    + pose proof (sum_over_pos snd l Hne Hpos) as Hp.
      fold (total l) in Hp. lra.
  - set (H := fun e : nat * Q => G e - (e.2 + net ts e.1)).
    assert (sum_over G l == sum_over H l) as ->.
    { rewrite (sum_over_ext G (fun e => H e + (e.2 + net ts e.1)))
        by (intros e _; unfold H; lra).
      rewrite sum_over_plus, Hsum. lra. }
    destruct (nonpos_or_all_pos (fun e : nat * Q => - e.2) l)
      as [(x & Hx & Hle)|Hneg].
    + apply (sum_over_slack H tol l x tol_nonneg); [|done|].
      * intros e He. specialize (Hside e He). unfold H.
        destruct (Hcases _ He) as [H'|[H'|H']]; lra.
      * unfold H. specialize (Hside x Hx).
        destruct (Hcases _ Hx) as [H'|[H'|H']]; lra.
    + pose proof (sum_over_pos _ l Hne Hneg) as Hp.
      rewrite sum_over_opp in Hp. fold (total l) in Hp. lra.
Qed.
End SettlementGuarantees.

(** The specification's scenario: B and C owe 30 each to A; B, the lower id of
    the two equal debtors, pays first. *)
Lemma simplifyDebts_scenario :
  Settlement.simplifyDebts tolerance Settlement.scenario
  = Settlement.Transfers
      [Settlement.mkTransfer 2 1 (30 # 1)%Q; Settlement.mkTransfer 3 1 (30 # 1)%Q].
Proof. vm_compute. reflexivity. Qed.

(** C8 (as stated, refuted): with a tolerance of 0.01, one member is owed 0.03
    and three members owe 0.01 each. The balances sum to zero, no member is a
    debtor beyond the tolerance, so nothing is transferred: 0.03 stays owed
    and 0.03 of the positive balances is not moved. *)
Lemma crumbs_not_settled : ~ Settlement.guarantees tolerance Settlement.crumbs.
Proof.
  intros H. destruct H as (ts & Hrun & _ & _ & Hm).
  - vm_compute. reflexivity.
  - vm_compute in Hrun. inversion Hrun; subst ts.
    unfold Settlement.moves_what_is_owed in Hm.
    apply Qle_bool_iff in Hm. vm_compute in Hm. discriminate.
Qed.

(** C8 (amended): for a tolerance [tol >= 0] and a zero-sum mapping over [n]
    members, [simplifyDebts] returns a sequence of at most [n - 1] transfers,
    each of a positive amount between two distinct members of the mapping;
    applying them keeps the members and brings every balance within
    [(n - 1) * tol] of zero; the total transferred is at most the sum of the
    positive balances and falls short of it by at most [(n - 1) * tol]; and
    the sequence is the same in whatever order the entries of the mapping are
    listed. With [tol = 0] every balance ends at zero and the total equals the
    sum of the positive balances. *)
Theorem simplifyDebts_guarantees (tol : Q) (balances : gmap nat Q) :
  (0 <= tol)%Q ->
  (Settlement.total (map_to_list balances) == 0)%Q ->
  exists ts,
    Settlement.simplifyDebts tol balances = Settlement.Transfers ts /\
    length ts <= Nat.pred (size balances) /\
    Forall (fun t => (0 < Settlement.amount t)%Q /\
                     Settlement.from t <> Settlement.to t /\
                     is_Some (balances !! Settlement.from t) /\
                     is_Some (balances !! Settlement.to t)) ts /\
    (forall i, is_Some (Settlement.apply_transfers ts balances !! i)
               <-> is_Some (balances !! i)) /\
    (forall i b, Settlement.apply_transfers ts balances !! i = Some b ->
       (Qabs b <= Settlement.slack tol (size balances))%Q) /\
    (0 <= Settlement.owed (map_to_list balances) - Settlement.transferred ts)%Q /\
    (Settlement.owed (map_to_list balances) - Settlement.transferred ts
       <= Settlement.slack tol (size balances))%Q /\
    (forall l, l ≡ₚ map_to_list balances ->
       Settlement.simplify_entries tol l = Settlement.Transfers ts).
Proof.
  intros Htol Hz.
  pose proof (NoDup_fst_map_to_list balances) as Hnd.
  destruct (simplify_entries_spec tol Htol (map_to_list balances) Hnd Hz)
    as (ts & Hrun & Hlen & Hall & Habs & Hlo & Hhi).
  rewrite length_map_to_list in Hlen, Habs, Hhi.
  exists ts. split; [exact Hrun|]. split; [exact Hlen|].
  split.
  { eapply Forall_impl; [exact Hall|]. intros t (Hpos & Hne & Hf & Ht).
    split; [done|]. split; [done|].
    apply list_elem_of_fmap in Hf as ([j a] & -> & Ha).
    apply list_elem_of_fmap in Ht as ([j' a'] & -> & Ha').
    apply elem_of_map_to_list in Ha, Ha'. simpl. eauto. }
  split.
  { intros i. pose proof (apply_transfers_lookup ts balances i) as Hl.
    destruct (Settlement.apply_transfers ts balances !! i), (balances !! i);
      try done; split; eauto. }
  split.
  { intros i b' Hb'. pose proof (apply_transfers_lookup ts balances i) as Hl.
    rewrite Hb' in Hl. destruct (balances !! i) as [b|] eqn:Hb; [|done].
    apply elem_of_map_to_list in Hb. specialize (Habs _ Hb). simpl in Habs.
    rewrite Hl. exact Habs. }
  split; [exact Hlo|]. split; [exact Hhi|].
  intros l Hp. rewrite <- Hrun. symmetry.
  by apply simplify_entries_perm.
Qed.

Lemma simplifyDebts_guarantees_witness :
  exists ts,
    Settlement.simplifyDebts tolerance Settlement.scenario = Settlement.Transfers ts /\
    length ts <= Nat.pred (size Settlement.scenario) /\
    Forall (fun t => (0 < Settlement.amount t)%Q /\
                     Settlement.from t <> Settlement.to t /\
                     is_Some (Settlement.scenario !! Settlement.from t) /\
                     is_Some (Settlement.scenario !! Settlement.to t)) ts /\
    (forall i, is_Some (Settlement.apply_transfers ts Settlement.scenario !! i)
               <-> is_Some (Settlement.scenario !! i)) /\
    (forall i b, Settlement.apply_transfers ts Settlement.scenario !! i = Some b ->
       (Qabs b <= Settlement.slack tolerance (size Settlement.scenario))%Q) /\
    (0 <= Settlement.owed (map_to_list Settlement.scenario)
          - Settlement.transferred ts)%Q /\
    (Settlement.owed (map_to_list Settlement.scenario) - Settlement.transferred ts
       <= Settlement.slack tolerance (size Settlement.scenario))%Q /\
    (forall l, l ≡ₚ map_to_list Settlement.scenario ->
       Settlement.simplify_entries tolerance l = Settlement.Transfers ts).
Proof.
  apply (simplifyDebts_guarantees tolerance Settlement.scenario).
  - vm_compute. discriminate.
  - vm_compute. reflexivity.
Defined.

(** * Further properties of the routes *)

(** ** Refusals *)

(** X1: without a valid token no guarded route does anything: the three
    writing routes answer 401 and leave the store as it is, and the dashboard
    answers 401. *)
Theorem unauthenticated_rejected h env db :
  h = NoToken \/ h = InvalidToken ->
  (forall r, credentials r = h ->
     exists msg, handle r env db = (db, Respond 401 (JError msg))) /\
  (exists msg, dashboard h db = inl (Respond 401 (JError msg))).
Proof.
  intros Hh. split.
  - intros r Hr. destruct r as [h' body|h' gid body|h' id]; simpl in Hr; subst h';
      destruct Hh as [-> | ->]; simpl; eauto.
  - destruct Hh as [-> | ->]; simpl; eauto.
Qed.

Lemma unauthenticated_rejected_witness :
  (forall r, credentials r = NoToken ->
     exists msg, handle r Scenario.env1 Dinner.db2
                 = (Dinner.db2, Respond 401 (JError msg))) /\
  (exists msg, dashboard NoToken Dinner.db2 = inl (Respond 401 (JError msg))).
Proof.
  exact (unauthenticated_rejected NoToken Scenario.env1 Dinner.db2 (or_introl eq_refl)).
Defined.

(** X2: a request that is not answered 200 has written nothing, whatever the
    reason of the failure (401, 404, a validation error, a type error, a
    duplicate key). *)
Theorem failure_keeps_store r env db db' o :
  handle r env db = (db', o) ->
  (forall b, o <> Respond 200 b) ->
  db' = db.
Proof.
  intros Hrun Hfail. destruct r as [h body|h gid body|h id]; simpl in Hrun.
  - unfold group_create in Hrun.
    destruct (auth h db) as [r|[[uid u]|]]; try (by inversion Hrun).
    destruct (GroupBody.members body); try (by inversion Hrun).
    destruct (Group_create _ _ _ _ _) as [e|[[db1 id1] g1]];
      inversion Hrun; subst; [done|]. by destruct (Hfail (JGroup id1 g1)).
  - unfold group_expense in Hrun.
    destruct (auth h db) as [r|u]; try (by inversion Hrun).
    destruct (groups db !! gid); try (by inversion Hrun).
    destruct (Expense_create _ _ _ _ _ _ _ _) as [e|[[db1 id1] e1]];
      inversion Hrun; subst; [done|]. by destruct (Hfail (JExpense id1 e1)).
  - unfold expense_markPaid in Hrun.
    destruct (auth h db) as [r|u]; try (by inversion Hrun).
    destruct (expenses db !! id); inversion Hrun; subst; [|done].
    by destruct (Hfail (JMessage "Expense marked as paid")).
Qed.

Lemma failure_keeps_store_witness :
  (handle (PostGroupExpense (ValidToken Scenario.alice) 11
             (ExpenseBody.mk (Some "Dinner") (Some (90 # 1)%Q) None None))
     Scenario.env1 Scenario.db0).1 = Scenario.db0.
Proof.
  refine (failure_keeps_store
            (PostGroupExpense (ValidToken Scenario.alice) 11
               (ExpenseBody.mk (Some "Dinner") (Some (90 # 1)%Q) None None))
            Scenario.env1 Scenario.db0 _
            (Respond 404 (JError "Group not found")) eq_refl _).
  intros b Hb. discriminate Hb.
Defined.

(** X3: a group is created exactly when the token is that of a stored user,
    the body has a members array and a non-empty name, and the generated id
    is free. *)
Theorem group_create_succeeds_iff h body env db :
  (exists db' id g, group_create h body env db = (db', Respond 200 (JGroup id g)))
  <->
  (exists uid, h = ValidToken uid /\ is_Some (users db !! uid)) /\
  is_Some (GroupBody.members body) /\
  string_required (GroupBody.name body) = true /\
  groups db !! newId env = None.
Proof.
  split.
  - intros (db' & id & g & Hc).
    apply group_create_inv in Hc
      as (uid & u & n & m & -> & Hu & Hn & Hne & Hm & Hf & _).
    split; [exists uid; split; [done|by rewrite Hu]|].
    split; [by rewrite Hm|]. split; [|done].
    rewrite Hn. by apply string_required_intro.
  - intros ((uid & -> & [u Hu]) & [m Hm] & Hn & Hf).
    apply string_required_Some in Hn as (n & Hn & Hne).
    unfold group_create. simpl. rewrite Hu, Hm. simpl.
    erewrite Group_create_ok by eassumption. eauto.
Qed.

Lemma group_create_succeeds_iff_witness :
  exists db' id g,
    group_create (ValidToken Scenario.bob)
      (GroupBody.mk (Some "Flat") (Some [])) Scenario.env1 Scenario.db0
    = (db', Respond 200 (JGroup id g)).
Proof.
  apply (proj2 (group_create_succeeds_iff (ValidToken Scenario.bob)
                  (GroupBody.mk (Some "Flat") (Some [])) Scenario.env1 Scenario.db0)).
  split; [exists Scenario.bob; split; [done|by eexists]|].
  repeat split; try done; by eexists.
Defined.

(** X4: an expense is recorded exactly when the token is valid, the group
    exists, the label is not empty, the amount is present, the date is absent
    or can be cast and the generated id is free; neither the requester, the
    amount's sign nor the splits matter. *)
Theorem group_expense_succeeds_iff h groupId body env db :
  (exists db' id e,
     group_expense h groupId body env db = (db', Respond 200 (JExpense id e)))
  <->
  (exists uid, h = ValidToken uid) /\
  is_Some (groups db !! groupId) /\
  string_required (ExpenseBody.label body) = true /\
  is_Some (ExpenseBody.amount body) /\
  is_Some (date_or_now (ExpenseBody.date body) env) /\
  expenses db !! newId env = None.
Proof.
  split.
  - intros (db' & id & e & Hc).
    apply group_expense_inv in Hc
      as (uid & group & l & a & d & -> & Hg & Hl & Hne & Ha & Hd & Hf & _).
    split; [by exists uid|]. split; [by rewrite Hg|].
    split; [rewrite Hl; by apply string_required_intro|].
    split; [by rewrite Ha|]. split; [by rewrite Hd|done].
  - intros ((uid & ->) & [group Hg] & Hl & [a Ha] & [d Hd] & Hf).
    apply string_required_Some in Hl as (l & Hl & Hne).
    pose proof (group_expense_ok uid groupId group body env db l a d
                  Hg Hl Hne Ha Hd Hf) as Hrun. simpl in Hrun. eauto.
Qed.

Lemma group_expense_succeeds_iff_witness :
  exists db' id e,
    group_expense (ValidToken Scenario.carol) 10
      (ExpenseBody.mk (Some "Refund") (Some (-5 # 1)%Q) None None)
      Scenario.env1 Scenario.db0
    = (db', Respond 200 (JExpense id e)).
Proof.
  apply (proj2 (group_expense_succeeds_iff (ValidToken Scenario.carol) 10
                  (ExpenseBody.mk (Some "Refund") (Some (-5 # 1)%Q) None None)
                  Scenario.env1 Scenario.db0)).
  split; [by exists Scenario.carol|]. repeat split; try done; by eexists.
Defined.

(** ** Frames *)

(** X5: creating a group adds one document and writes nothing else: the new
    group has the given name, no expenses and both timestamps at the request
    time; users, expenses and all other groups are as before, and no stored
    group is replaced. *)
Theorem group_create_frame h body env db db' id g :
  group_create h body env db = (db', Respond 200 (JGroup id g)) ->
  groups db !! id = None /\
  groups db' !! id = Some g /\
  GroupBody.name body = Some (Group.name g) /\
  Group.expenses g = [] /\
  Group.createdAt g = now env /\ Group.updatedAt g = now env /\
  (forall id', id' <> id -> groups db' !! id' = groups db !! id') /\
  users db' = users db /\ expenses db' = expenses db.
Proof.
  intros Hc.
  apply group_create_inv in Hc
    as (uid & u & n & m & -> & Hu & Hn & Hne & Hm & Hf & -> & -> & ->).
  simpl. split; [done|]. split; [apply lookup_insert_eq|].
  repeat split; try done. intros id' Hid. by rewrite lookup_insert_ne.
Qed.

Lemma group_create_frame_witness :
  let g := Group.mk "Flat" Scenario.bob [Scenario.bob; Scenario.carol] [] 2000 2000 in
  let db' := insert_group 20 g Scenario.db0 in
  groups Scenario.db0 !! 20 = None /\
  groups db' !! 20 = Some g /\
  Some "Flat" = Some (Group.name g) /\
  Group.expenses g = [] /\
  Group.createdAt g = 2000 /\ Group.updatedAt g = 2000 /\
  (forall id', id' <> 20 -> groups db' !! id' = groups Scenario.db0 !! id') /\
  users db' = users Scenario.db0 /\ expenses db' = expenses Scenario.db0.
Proof.
  intros g db'.
  exact (group_create_frame (ValidToken Scenario.bob)
           (GroupBody.mk (Some "Flat") (Some [Scenario.carol]))
           Scenario.env1 Scenario.db0 db' 20 g eq_refl).
Defined.

(** X6: recording an expense writes two documents and nothing else: the new
    expense, under an id that was free, and its group, whose name, creator,
    members and creation time are kept; users, all other expenses and all
    other groups are as before. The stored date is the one of the request,
    the request time when it gives none. *)
Theorem group_expense_frame h groupId body env db db' id e :
  group_expense h groupId body env db = (db', Respond 200 (JExpense id e)) ->
  expenses db !! id = None /\
  Expense.group e = groupId /\
  date_or_now (ExpenseBody.date body) env = Some (Expense.date e) /\
  (forall id', id' <> id -> expenses db' !! id' = expenses db !! id') /\
  (forall gid, gid <> groupId -> groups db' !! gid = groups db !! gid) /\
  (exists group group',
     groups db !! groupId = Some group /\ groups db' !! groupId = Some group' /\
     Group.name group' = Group.name group /\
     Group.createdBy group' = Group.createdBy group /\
     Group.members group' = Group.members group /\
     Group.createdAt group' = Group.createdAt group /\
     Group.updatedAt group' = now env) /\
  users db' = users db.
Proof.
  intros Hc.
  apply group_expense_inv in Hc
    as (uid & group & l & a & d & -> & Hg & Hl & Hne & Ha & Hd & Hf & -> & -> & ->).
  simpl. split; [done|]. split; [done|]. split; [done|].
  split; [intros id' Hid; by rewrite lookup_insert_ne|].
  split; [intros gid Hgid; by rewrite lookup_insert_ne|].
  split; [|done].
  exists group, (Group_push_expense (newId env) group env).
  split; [done|]. split; [apply lookup_insert_eq|]. done.
Qed.

Lemma group_expense_frame_witness :
  let e := Expense.mk "Dinner" (90 # 1)%Q 2000 10
             (cast_split <$> default [] (ExpenseBody.splits Dinner.body))
             false 2000 2000 in
  expenses Scenario.db0 !! 20 = None /\
  Expense.group e = 10 /\
  Some 2000 = Some (Expense.date e) /\
  (forall id', id' <> 20 -> expenses Dinner.db1 !! id' = expenses Scenario.db0 !! id') /\
  (forall gid, gid <> 10 -> groups Dinner.db1 !! gid = groups Scenario.db0 !! gid) /\
  (exists group group',
     groups Scenario.db0 !! 10 = Some group /\ groups Dinner.db1 !! 10 = Some group' /\
     Group.name group' = Group.name group /\
     Group.createdBy group' = Group.createdBy group /\
     Group.members group' = Group.members group /\
     Group.createdAt group' = Group.createdAt group /\
     Group.updatedAt group' = 2000) /\
  users Dinner.db1 = users Scenario.db0.
Proof.
  intros e.
  exact (group_expense_frame (ValidToken Scenario.alice) 10 Dinner.body
           Scenario.env1 Scenario.db0 Dinner.db1 20 e eq_refl).
Defined.

(** ** Invariants over all requests *)

Lemma Expense_set_paid_data e env : same_expense_data e (Expense_set_paid e env).
Proof.
  unfold Expense_set_paid, same_expense_data.
  destruct (Expense.paid e) eqn:Hp; simpl; repeat split; auto.
Qed.

Lemma same_expense_data_refl e : same_expense_data e e.
Proof. unfold same_expense_data. repeat split; auto. Qed.

Lemma same_expense_data_trans e1 e2 e3 :
  same_expense_data e1 e2 -> same_expense_data e2 e3 -> same_expense_data e1 e3.
Proof.
  unfold same_expense_data.
  intros (? & ? & ? & ? & ? & ? & ?) (? & ? & ? & ? & ? & ? & ?).
  repeat split; try congruence. auto.
Qed.

(** What a request does to the stored expenses. *)
Lemma handle_expenses r env db :
  let db' := (handle r env db).1 in
  expenses db' = expenses db \/
  (exists id e, expenses db !! id = None /\ expenses db' = <[id := e]> (expenses db)) \/
  (exists id e, expenses db !! id = Some e /\
     expenses db' = <[id := Expense_set_paid e env]> (expenses db)).
Proof.
  destruct r as [h body|h gid body|h id]; simpl.
  - left. unfold group_create.
    destruct (auth h db) as [r|[[uid u]|]]; try done.
    destruct (GroupBody.members body); try done.
    destruct (Group_create _ _ _ _ _) as [ex|[[db1 id1] g1]] eqn:Hc; try done.
    by apply Group_create_inv in Hc as (n & _ & _ & _ & _ & _ & ->).
  - unfold group_expense.
    destruct (auth h db) as [r|u]; [by left|].
    destruct (groups db !! gid); [|by left].
    destruct (Expense_create _ _ _ _ _ _ _ _) as [ex|[[db1 id1] e1]] eqn:Hc;
      [by left|].
    apply Expense_create_inv in Hc as (l & a & d & _ & _ & _ & _ & Hf & -> & _ & ->).
    right; left. exists (newId env), e1. split; done.
  - unfold expense_markPaid.
    destruct (auth h db) as [r|u]; [by left|].
    destruct (expenses db !! id) as [e|] eqn:He; [|by left].
    right; right. exists id, e. split; done.
Qed.

Lemma step_keeps_expense db db' id e :
  step db db' -> expenses db !! id = Some e ->
  exists e', expenses db' !! id = Some e' /\ same_expense_data e e'.
Proof.
  intros Hs He. destruct Hs as [r env db|us db];
    [|simpl; eauto using same_expense_data_refl].
  destruct (handle_expenses r env db) as [Heq|[(i & x & Hi & Heq)|(i & x & Hi & Heq)]];
    rewrite Heq.
  - eauto using same_expense_data_refl.
  - rewrite lookup_insert_ne by congruence. eauto using same_expense_data_refl.
  - destruct (decide (i = id)) as [->|Hne].
    + rewrite lookup_insert_eq. rewrite He in Hi. inversion Hi; subst.
      eauto using Expense_set_paid_data.
    + rewrite lookup_insert_ne by done. eauto using same_expense_data_refl.
Qed.

(** X7: a stored expense is never deleted and never edited: whatever requests
    are served, it is still stored under its id with the same label, amount,
    date, group, splits (each split's paid flag included) and creation time,
    and once its paid flag is set it stays set. *)
Theorem expense_is_permanent db db' id e :
  reachable_from db db' -> expenses db !! id = Some e ->
  exists e', expenses db' !! id = Some e' /\
    Expense.label e' = Expense.label e /\
    Expense.amount e' = Expense.amount e /\
    Expense.date e' = Expense.date e /\
    Expense.group e' = Expense.group e /\
    Expense.splits e' = Expense.splits e /\
    Expense.createdAt e' = Expense.createdAt e /\
    (Expense.paid e = true -> Expense.paid e' = true).
Proof.
  intros Hr. revert e. induction Hr as [db|db db1 db2 Hs _ IH]; intros e He.
  - exists e. split; [done|]. apply same_expense_data_refl.
  - destruct (step_keeps_expense _ _ _ _ Hs He) as (e1 & He1 & H1).
    destruct (IH _ He1) as (e2 & He2 & H2).
    exists e2. split; [done|].
    exact (same_expense_data_trans _ _ _ H1 H2).
Qed.

Lemma expense_is_permanent_witness :
  exists e', expenses Dinner.db2 !! 20 = Some e' /\
    Expense.label e' = "Dinner" /\
    Expense.amount e' = (90 # 1)%Q /\
    Expense.date e' = 2000 /\
    Expense.group e' = 10 /\
    Expense.splits e'
      = [Split.mk (Some Scenario.alice) (Some (30 # 1)%Q) false;
         Split.mk (Some Scenario.bob) (Some (30 # 1)%Q) false;
         Split.mk (Some Scenario.carol) (Some (30 # 1)%Q) false] /\
    Expense.createdAt e' = 2000 /\
    (false = true -> Expense.paid e' = true).
Proof.
  refine (expense_is_permanent Dinner.db1 Dinner.db2 20
            (Expense.mk "Dinner" (90 # 1)%Q 2000 10
               [Split.mk (Some Scenario.alice) (Some (30 # 1)%Q) false;
                Split.mk (Some Scenario.bob) (Some (30 # 1)%Q) false;
                Split.mk (Some Scenario.carol) (Some (30 # 1)%Q) false]
               false 2000 2000)
            _ eq_refl).
  apply rtc_once.
  exact (step_route (PostExpenseMarkPaid (ValidToken Scenario.bob) 20)
           Scenario.env2 Dinner.db1).
Defined.

(** What a request does to the store: nothing, or one of three writes. *)
Lemma handle_effect r env db :
  let db' := (handle r env db).1 in
  db' = db \/
  (exists id g, groups db !! id = None /\ Group.expenses g = [] /\
     db' = insert_group id g db) \/
  (exists gid group id e,
     groups db !! gid = Some group /\ expenses db !! id = None /\
     Expense.group e = gid /\
     db' = insert_group gid (Group_push_expense id group env)
             (insert_expense id e db)) \/
  (exists id e, expenses db !! id = Some e /\
     db' = insert_expense id (Expense_set_paid e env) db).
Proof.
  destruct r as [h body|h gid body|h id]; simpl.
  - unfold group_create.
    destruct (auth h db) as [r|[[uid u]|]]; try (by left).
    destruct (GroupBody.members body); try (by left).
    destruct (Group_create _ _ _ _ _) as [ex|[[db1 id1] g1]] eqn:Hc; [by left|].
    apply Group_create_inv in Hc as (n & _ & _ & Hf & -> & -> & ->).
    right; left. eexists _, _. split; [exact Hf|]. split; [|reflexivity].
    reflexivity.
  - unfold group_expense.
    destruct (auth h db) as [r|u]; [by left|].
    destruct (groups db !! gid) as [group|] eqn:Hg; [|by left].
    destruct (Expense_create _ _ _ _ _ _ _ _) as [ex|[[db1 id1] e1]] eqn:Hc;
      [by left|].
    apply Expense_create_inv in Hc as (l & a & d & _ & _ & _ & _ & Hf & -> & -> & ->).
    right; right; left. eexists gid, group, _, _.
    split; [done|]. split; [exact Hf|]. split; [|reflexivity]. reflexivity.
  - unfold expense_markPaid.
    destruct (auth h db) as [r|u]; [by left|].
    destruct (expenses db !! id) as [e|] eqn:He; [|by left].
    right; right; right. by exists id, e.
Qed.

Lemma step_group_grows db db' gid g :
  step db db' -> groups db !! gid = Some g ->
  exists g', groups db' !! gid = Some g' /\ group_grows g g'.
Proof.
  assert (forall x, group_grows x x) as Hrefl by (intros x; by repeat split).
  intros Hs Hg. destruct Hs as [r env db|us db]; [|simpl; eauto].
  destruct (handle_effect r env db)
    as [Heq|[(i & x & Hi & _ & Heq)|[(i & grp & j & e & Hi & _ & _ & Heq)
        |(j & e & _ & Heq)]]]; rewrite Heq; simpl; eauto.
  - rewrite lookup_insert_ne by congruence. eauto.
  - destruct (decide (i = gid)) as [->|Hne].
    + rewrite lookup_insert_eq. rewrite Hg in Hi. inversion Hi; subst grp.
      eexists. split; [done|]. repeat split. simpl. by apply prefix_app_r.
    + rewrite lookup_insert_ne by done. eauto.
Qed.

(** X8: a stored group is never deleted or renamed, and its list of expenses
    only grows at the end: whatever requests are served, the group is still
    stored under its id with the same name and creation time, and the list it
    had is a prefix of the list it has. *)
Theorem group_only_grows db db' gid g :
  reachable_from db db' -> groups db !! gid = Some g ->
  exists g', groups db' !! gid = Some g' /\
    Group.name g' = Group.name g /\
    Group.createdAt g' = Group.createdAt g /\
    Group.expenses g `prefix_of` Group.expenses g'.
Proof.
  intros Hr. revert g. induction Hr as [db|db db1 db2 Hs _ IH]; intros g Hg.
  - exists g. by repeat split.
  - destruct (step_group_grows _ _ _ _ Hs Hg) as (g1 & Hg1 & Hn1 & Hc1 & Hp1).
    destruct (IH _ Hg1) as (g2 & Hg2 & Hn2 & Hc2 & Hp2).
    exists g2. split; [done|]. split; [congruence|]. split; [congruence|].
    by etrans.
Qed.

Lemma group_only_grows_witness :
  exists g', groups Dinner.db2 !! 10 = Some g' /\
    Group.name g' = "Trip" /\
    Group.createdAt g' = 1000 /\
    [] `prefix_of` Group.expenses g'.
Proof.
  refine (group_only_grows Scenario.db0 Dinner.db2 10 Scenario.trip _ eq_refl).
  eapply rtc_l; [|apply rtc_once].
  - exact (step_route (PostGroupExpense (ValidToken Scenario.alice) 10 Dinner.body)
             Scenario.env1 Scenario.db0).
  - exact (step_route (PostExpenseMarkPaid (ValidToken Scenario.bob) 20)
             Scenario.env2 Dinner.db1).
Defined.

Lemma step_consistent db db' : step db db' -> consistent db -> consistent db'.
Proof.
  intros Hs (Hlisted & Hstored & Hnodup).
  destruct Hs as [r env db|us db]; [|done].
  destruct (handle_effect r env db)
    as [Heq|[(i & x & Hi & Hx & Heq)|[(i & grp & j & e & Hi & Hj & He & Heq)
        |(j & e & Hj & Heq)]]]; rewrite Heq; clear Heq.
  - done.
  - (* a group is created *)
    split; [|split]; simpl.
    + intros gid g id Hg Hin. destruct (decide (i = gid)) as [->|Hne].
      * rewrite lookup_insert_eq in Hg. inversion Hg; subst g.
        rewrite Hx in Hin. by apply elem_of_nil in Hin.
      * rewrite lookup_insert_ne in Hg by done. eauto.
    + intros id e He. destruct (Hstored _ _ He) as (g & Hg & Hin).
      exists g. split; [|done]. rewrite lookup_insert_ne; [done|congruence].
    + intros gid g Hg. destruct (decide (i = gid)) as [->|Hne].
      * rewrite lookup_insert_eq in Hg. inversion Hg; subst g.
        rewrite Hx. constructor.
      * rewrite lookup_insert_ne in Hg by done. eauto.
  - (* an expense is recorded *)
    assert (forall id, id ∈ Group.expenses grp -> id <> j) as Hfresh.
    { intros id Hin ->. destruct (Hlisted _ _ _ Hi Hin) as (e0 & He0 & _).
      congruence. }
    split; [|split]; simpl.
    + intros gid g id Hg Hin. destruct (decide (i = gid)) as [->|Hne].
      * rewrite lookup_insert_eq in Hg. inversion Hg; subst g. simpl in Hin.
        apply elem_of_app in Hin as [Hin|Hin].
        -- rewrite lookup_insert_ne by (apply not_eq_sym; auto). eauto.
        -- apply list_elem_of_singleton in Hin as ->.
           rewrite lookup_insert_eq. eauto.
      * rewrite lookup_insert_ne in Hg by done.
        destruct (Hlisted _ _ _ Hg Hin) as (e0 & He0 & Hgr).
        exists e0. split; [|done]. rewrite lookup_insert_ne; [done|congruence].
    + intros id e0 He0. destruct (decide (j = id)) as [->|Hne].
      * rewrite lookup_insert_eq in He0. inversion He0; subst e0. rewrite He.
        rewrite lookup_insert_eq. eexists. split; [done|]. simpl.
        apply elem_of_app. right. apply list_elem_of_here.
      * rewrite lookup_insert_ne in He0 by done.
        destruct (Hstored _ _ He0) as (g & Hg & Hin).
        destruct (decide (i = Expense.group e0)) as [Heq|Hne'].
        -- rewrite <- Heq in *. rewrite lookup_insert_eq.
           rewrite Hi in Hg. inversion Hg; subst g.
           eexists. split; [done|]. simpl. apply elem_of_app. by left.
        -- rewrite lookup_insert_ne by done. eauto.
    + intros gid g Hg. destruct (decide (i = gid)) as [->|Hne].
      * rewrite lookup_insert_eq in Hg. inversion Hg; subst g. simpl.
        apply NoDup_app. split; [eauto|]. split; [|apply NoDup_singleton].
        intros id Hin Hin'. apply list_elem_of_singleton in Hin'.
        by apply (Hfresh id).
      * rewrite lookup_insert_ne in Hg by done. eauto.
  - (* an expense is marked as paid *)
    assert (Expense.group (Expense_set_paid e env) = Expense.group e) as Hgrp.
    { by destruct (Expense_set_paid_data e env) as (_ & _ & _ & ? & _). }
    split; [|split]; simpl; [| |done].
    + intros gid g id Hg Hin. destruct (Hlisted _ _ _ Hg Hin) as (e0 & He0 & Hgr).
      destruct (decide (j = id)) as [->|Hne].
      * rewrite lookup_insert_eq. eexists. split; [done|]. congruence.
      * rewrite lookup_insert_ne by done. eauto.
    + intros id e0 He0. destruct (decide (j = id)) as [->|Hne].
      * rewrite lookup_insert_eq in He0. inversion He0; subst e0.
        rewrite Hgrp. eauto.
      * rewrite lookup_insert_ne in He0 by done. eauto.
Qed.

(** X9: groups and expenses stay consistent with each other. If every id a
    group lists is a stored expense of that group, every stored expense is
    listed by its group and no list repeats an id, then the same holds after
    any sequence of requests; in particular in every store reached from the
    empty one. *)
Theorem store_stays_consistent db db' :
  reachable_from db db' -> consistent db -> consistent db'.
Proof.
  induction 1 as [db|db db1 db2 Hs _ IH]; [done|].
  intros Hc. apply IH. by apply (step_consistent db).
Qed.

Lemma consistent_empty : consistent (mkDB ∅ ∅ ∅).
Proof.
  split; [|split]; simpl.
  - intros gid g id Hg. by rewrite lookup_empty in Hg.
  - intros id e He. by rewrite lookup_empty in He.
  - intros gid g Hg. by rewrite lookup_empty in Hg.
Qed.

Lemma store_stays_consistent_witness :
  consistent (handle (PostGroupCreate (ValidToken 1) (GroupBody.mk (Some "Flat") (Some [])))
                Scenario.env1 (mkDB (<[1 := Scenario.user "alice"]> ∅) ∅ ∅)).1.
Proof.
  refine (store_stays_consistent (mkDB ∅ ∅ ∅) _ _ consistent_empty).
  eapply rtc_l; [|apply rtc_once].
  - exact (step_user_routes (<[1 := Scenario.user "alice"]> ∅) (mkDB ∅ ∅ ∅)).
  - exact (step_route
             (PostGroupCreate (ValidToken 1) (GroupBody.mk (Some "Flat") (Some [])))
             Scenario.env1 (mkDB (<[1 := Scenario.user "alice"]> ∅) ∅ ∅)).
Defined.

(** ** The dashboard *)

Lemma dashboard_ok uid u db :
  users db !! uid = Some u ->
  dashboard (ValidToken uid) db
  = inr (uid, u,
         populate db <$> filter (fun kv => uid ∈ Group.members kv.2) (groups db)).
Proof. intros Hu. unfold dashboard. simpl. by rewrite Hu. Qed.

Lemma dashboard_lookup uid db gid :
  (populate db <$> filter (fun kv => uid ∈ Group.members kv.2) (groups db)) !! gid
  = match groups db !! gid with
    | Some g => if decide (uid ∈ Group.members g) then Some (populate db g) else None
    | None => None
    end.
Proof.
  rewrite lookup_fmap.
  destruct (groups db !! gid) as [g|] eqn:Hg.
  - destruct (decide (uid ∈ Group.members g)) as [Hin|Hout].
    + erewrite (proj2 (map_lookup_filter_Some _ _ gid g)); [done|]. by split.
    + rewrite (proj2 (map_lookup_filter_None _ _ gid)); [done|].
      right. intros g' Hg'. rewrite Hg in Hg'. inversion Hg'; subst. exact Hout.
  - rewrite (proj2 (map_lookup_filter_None _ _ gid)); [done|]. by left.
Qed.

(** X10: the dashboard of a stored user shows the groups that list the user
    as a member and no other group: a group is in the answer exactly when it
    is stored and the user's id is in its members. A token that names no
    stored user gets no answer (the handler throws a type error). *)
Theorem dashboard_shows_own_groups uid db :
  (forall u, users db !! uid = Some u ->
     exists gs, dashboard (ValidToken uid) db = inr (uid, u, gs) /\
       forall gid, is_Some (gs !! gid) <->
         exists g, groups db !! gid = Some g /\ uid ∈ Group.members g) /\
  (users db !! uid = None ->
     exists msg, dashboard (ValidToken uid) db = inl (Reject (TypeError msg))).
Proof.
  split.
  - intros u Hu. eexists. split; [by apply dashboard_ok|].
    intros gid. rewrite dashboard_lookup.
    destruct (groups db !! gid) as [g|] eqn:Hg.
    + destruct (decide (uid ∈ Group.members g)) as [Hin|Hout].
      * split; [eauto|]. by eexists.
      * split; [by intros [? ?]|]. intros (g' & Hg' & Hin).
        inversion Hg'; subst. contradiction.
    + split; [by intros [? ?]|]. by intros (g' & Hg' & _).
  - intros Hu. unfold dashboard. simpl. rewrite Hu. simpl. eauto.
Qed.

Lemma dashboard_shows_own_groups_witness :
  exists gs, dashboard (ValidToken Scenario.carol) Dinner.db2
             = inr (Scenario.carol, Scenario.user "carol", gs) /\
    forall gid, is_Some (gs !! gid) <->
      exists g, groups Dinner.db2 !! gid = Some g /\ Scenario.carol ∈ Group.members g.
Proof.
  exact (proj1 (dashboard_shows_own_groups Scenario.carol Dinner.db2)
           (Scenario.user "carol") eq_refl).
Defined.

(** X11: a created group is on its creator's dashboard at once, with no
    expenses and with the creator as its first populated member. *)
Theorem dashboard_after_group_create h body env db db' id g :
  group_create h body env db = (db', Respond 200 (JGroup id g)) ->
  exists uid u gs pg,
    h = ValidToken uid /\
    dashboard h db' = inr (uid, u, gs) /\
    gs !! id = Some pg /\
    PopulatedGroup.name pg = Group.name g /\
    PopulatedGroup.expenses pg = [] /\
    head (PopulatedGroup.members pg)
      = Some (PopulatedMember.mk uid (User.name u) (User.phone u)).
Proof.
  intros Hc.
  apply group_create_inv in Hc
    as (uid & u & n & m & -> & Hu & Hn & Hne & Hm & Hf & -> & -> & ->).
  exists uid, u. eexists _, _. split; [done|].
  split; [apply dashboard_ok; exact Hu|].
  split.
  { rewrite dashboard_lookup. simpl. rewrite lookup_insert_eq.
    rewrite decide_True; [done|]. simpl. apply list_elem_of_here. }
  simpl. split; [done|]. split; [done|].
  unfold populate_members. simpl. by rewrite Hu.
Qed.

Lemma dashboard_after_group_create_witness :
  let g := Group.mk "Flat" Scenario.bob [Scenario.bob; Scenario.carol] [] 2000 2000 in
  exists uid u gs pg,
    ValidToken Scenario.bob = ValidToken uid /\
    dashboard (ValidToken Scenario.bob) (insert_group 20 g Scenario.db0)
      = inr (uid, u, gs) /\
    gs !! 20 = Some pg /\
    PopulatedGroup.name pg = Group.name g /\
    PopulatedGroup.expenses pg = [] /\
    head (PopulatedGroup.members pg)
      = Some (PopulatedMember.mk uid (User.name u) (User.phone u)).
Proof.
  intros g.
  exact (dashboard_after_group_create (ValidToken Scenario.bob)
           (GroupBody.mk (Some "Flat") (Some [Scenario.carol]))
           Scenario.env1 Scenario.db0 (insert_group 20 g Scenario.db0) 20 g eq_refl).
Defined.

(** X12: a recorded expense is on the dashboard of every stored user who is
    a member of the group, as the last expense of that group, whoever recorded
    it. *)
Theorem dashboard_after_group_expense h groupId body env db db' id e :
  group_expense h groupId body env db = (db', Respond 200 (JExpense id e)) ->
  forall uid u group,
    groups db !! groupId = Some group ->
    uid ∈ Group.members group ->
    users db !! uid = Some u ->
    exists gs pg,
      dashboard (ValidToken uid) db' = inr (uid, u, gs) /\
      gs !! groupId = Some pg /\
      last (PopulatedGroup.expenses pg) = Some (id, e).
Proof.
  intros Hc uid u group Hg Hin Hu.
  apply group_expense_inv in Hc
    as (uid' & group' & l & a & d & -> & Hg' & Hl & Hne & Ha & Hd & Hf & -> & -> & ->).
  rewrite Hg in Hg'. inversion Hg'; subst group'.
  eexists _, _. split; [apply dashboard_ok; exact Hu|].
  split.
  { rewrite dashboard_lookup. simpl. rewrite lookup_insert_eq.
    rewrite decide_True; [done|]. exact Hin. }
  simpl. unfold populate_expenses. rewrite omap_app. simpl.
  rewrite lookup_insert_eq. simpl. apply last_snoc.
Qed.

Lemma dashboard_after_group_expense_witness :
  exists gs pg,
    dashboard (ValidToken Scenario.bob) Dinner.db1
      = inr (Scenario.bob, Scenario.user "bob", gs) /\
    gs !! 10 = Some pg /\
    last (PopulatedGroup.expenses pg)
      = Some (20, Expense.mk "Dinner" (90 # 1)%Q 2000 10
                    (cast_split <$> default [] (ExpenseBody.splits Dinner.body))
                    false 2000 2000).
Proof.
  exact (dashboard_after_group_expense (ValidToken Scenario.alice) 10 Dinner.body
           Scenario.env1 Scenario.db0 Dinner.db1 20 _ eq_refl
           Scenario.bob (Scenario.user "bob") Scenario.trip
           eq_refl ltac:(vm_compute; apply list_elem_of_further, list_elem_of_here)
           eq_refl).
Defined.

Lemma populate_expenses_all db ids :
  (forall id, id ∈ ids -> is_Some (expenses db !! id)) ->
  (populate_expenses db ids).*1 = ids.
Proof.
  induction ids as [|id ids IH]; intros H; [done|].
  unfold populate_expenses. cbn [omap list_omap].
  destruct (H id (list_elem_of_here _ _)) as [e He]. rewrite He. simpl.
  f_equal. apply IH. intros x Hx. apply H. by apply list_elem_of_further.
Qed.

Lemma populate_expenses_stored db ids id e :
  (id, e) ∈ populate_expenses db ids -> id ∈ ids /\ expenses db !! id = Some e.
Proof.
  unfold populate_expenses. rewrite list_elem_of_omap.
  intros (x & Hx & Hl). destruct (expenses db !! x) as [e0|] eqn:He;
    simpl in Hl; [|done].
  inversion Hl; subst. done.
Qed.

(** X13: in a consistent store the dashboard loses nothing: each group it
    shows has, in the order of the group's list, exactly one populated
    expense per listed id, each of them an expense of that group. *)
Theorem dashboard_resolves_expenses uid u db gs gid pg :
  consistent db ->
  dashboard (ValidToken uid) db = inr (uid, u, gs) ->
  gs !! gid = Some pg ->
  exists g, groups db !! gid = Some g /\
    (PopulatedGroup.expenses pg).*1 = Group.expenses g /\
    NoDup (PopulatedGroup.expenses pg).*1 /\
    Forall (fun x => Expense.group x.2 = gid) (PopulatedGroup.expenses pg).
Proof.
  intros (Hlisted & _ & Hnodup) Hd Hpg.
  unfold dashboard in Hd. simpl in Hd.
  destruct (users db !! uid) as [u'|]; simpl in Hd; [|done].
  inversion Hd; subst u' gs; clear Hd.
  rewrite dashboard_lookup in Hpg.
  destruct (groups db !! gid) as [g|] eqn:Hg; [|done].
  destruct (decide (uid ∈ Group.members g)) as [Hmem|]; [|done].
  inversion Hpg; subst pg; clear Hpg. exists g. split; [done|]. simpl.
  assert ((populate_expenses db (Group.expenses g)).*1 = Group.expenses g) as Heq.
  { apply populate_expenses_all. intros id Hin.
    destruct (Hlisted _ _ _ Hg Hin) as (e & He & _). by rewrite He. }
  split; [done|]. split; [rewrite Heq; eauto|].
  apply Forall_forall. intros [id e] Hin.
  apply populate_expenses_stored in Hin as [Hin He].
  destruct (Hlisted _ _ _ Hg Hin) as (e' & He' & Hgr). simpl. congruence.
Qed.

Lemma consistent_scenario : consistent Scenario.db0.
Proof.
  pose (dbU := mkDB (users Scenario.db0) ∅ ∅).
  pose proof (step_consistent _ _ (step_user_routes (users Scenario.db0) (mkDB ∅ ∅ ∅))
                consistent_empty) as HU.
  exact (step_consistent _ _
           (step_route (PostGroupCreate (ValidToken Scenario.alice)
                          (GroupBody.mk (Some "Trip") (Some [Scenario.bob])))
              (mkEnv 1000 10) dbU) HU).
Qed.

Lemma consistent_dinner : consistent Dinner.db1.
Proof.
  exact (step_consistent _ _
           (step_route (PostGroupExpense (ValidToken Scenario.alice) 10 Dinner.body)
              Scenario.env1 Scenario.db0) consistent_scenario).
Qed.

Lemma dashboard_resolves_expenses_witness :
  let pg := populate Dinner.db1 (Group_push_expense 20 Scenario.trip Scenario.env1) in
  exists g, groups Dinner.db1 !! 10 = Some g /\
    (PopulatedGroup.expenses pg).*1 = Group.expenses g /\
    NoDup (PopulatedGroup.expenses pg).*1 /\
    Forall (fun x => Expense.group x.2 = 10) (PopulatedGroup.expenses pg).
Proof.
  intros pg.
  exact (dashboard_resolves_expenses Scenario.bob (Scenario.user "bob")
           Dinner.db1
           (populate Dinner.db1
              <$> filter (fun kv => Scenario.bob ∈ Group.members kv.2)
                    (groups Dinner.db1))
           10 pg consistent_dinner eq_refl eq_refl).
Defined.

(** ** Accounts *)

Lemma head_bfilter_None {A} (f : A -> bool) (l : list A) :
  head (List.filter f l) = None <-> forall x, x ∈ l -> f x = false.
Proof.
  induction l as [|y l IH]; simpl.
  - split; [intros _ x Hx; by apply elem_of_nil in Hx|done].
  - destruct (f y) eqn:Hy; simpl.
    + split; [done|]. intros H. specialize (H y (list_elem_of_here _ _)). congruence.
    + rewrite IH. split.
      * intros H x Hx. apply elem_of_cons in Hx as [->|Hx]; auto.
      * intros H x Hx. apply H. by apply list_elem_of_further.
Qed.

Lemma head_bfilter_Some {A} (f : A -> bool) (l : list A) x :
  head (List.filter f l) = Some x -> x ∈ l /\ f x = true.
Proof.
  intros H. apply elem_of_bfilter.
  destruct (List.filter f l) as [|y l']; [done|]. simpl in H. inversion H; subst.
  apply list_elem_of_here.
Qed.

Lemma User_findOne_None p db :
  User_findOne p db = None <-> forall id u, users db !! id = Some u -> p u = false.
Proof.
  unfold User_findOne. rewrite head_bfilter_None. split.
  - intros H id u Hu. apply (H (id, u)). by apply elem_of_map_to_list.
  - intros H [id u] Hin. apply elem_of_map_to_list in Hin. simpl. eauto.
Qed.

Lemma User_findOne_Some p db id u :
  User_findOne p db = Some (id, u) -> users db !! id = Some u /\ p u = true.
Proof.
  unfold User_findOne. intros H. apply head_bfilter_Some in H as [Hin Hp].
  by apply elem_of_map_to_list in Hin.
Qed.


Lemma truthy_Some v s : truthy v = Some s <-> v = Some s /\ s <> "".
Proof.
  destruct v as [x|]; simpl; [|split; [done|by intros [? _]]].
  destruct (String.eqb_spec x ""); split.
  - done.
  - intros [Hx Hne]. inversion Hx; subst. contradiction.
  - intros H. inversion H; subst. done.
  - intros [Hx _]. done.
Qed.

Lemma same_name_or_phone_false name phone u :
  same_name_or_phone name phone u = false
  <-> User.name u <> name /\ User.phone u <> phone.
Proof.
  unfold same_name_or_phone. rewrite orb_false_iff.
  destruct (String.eqb_spec (User.name u) name),
           (String.eqb_spec (User.phone u) phone); split; intros [? ?]; done.
Qed.

Lemma User_create_ok name phone upi_id password env db :
  name <> "" -> phone <> "" -> upi_id <> "" -> password <> "" ->
  users db !! newId env = None ->
  User_findOne (same_name_or_phone name phone) db = None ->
  User_create name phone upi_id password env db
  = inr (insert_user (newId env) (User.mk name phone upi_id password [] []) db,
         newId env, User.mk name phone upi_id password [] []).
Proof.
  intros H1 H2 H3 H4 Hid Hnone. unfold User_create.
  rewrite !string_required_intro by done. simpl. by rewrite Hid, Hnone.
Qed.

Lemma User_create_inv name phone upi_id password env db db' id u :
  User_create name phone upi_id password env db = inr (db', id, u) ->
  password <> "" /\ users db !! newId env = None /\
  id = newId env /\ u = User.mk name phone upi_id password [] [] /\
  db' = insert_user id u db.
Proof.
  unfold User_create.
  destruct (string_required (Some name)), (string_required (Some phone)),
           (string_required (Some upi_id)),
           (string_required (Some password)) eqn:Hp; simpl; try discriminate.
  destruct (users db !! newId env) eqn:Hid; [discriminate|].
  destruct (User_findOne _ db); [discriminate|].
  intros H. inversion H; subst.
  apply string_required_Some in Hp as (s & Hs & Hne). inversion Hs; subst. done.
Qed.

Section AccountFacts.
Variable bcrypt_hash : string -> string -> string.
Variable bcrypt_compare : string -> string -> bool.

Lemma signup_inv body salt env db db' b :
  signup bcrypt_hash body salt env db = (db', (200, b)) ->
  exists name phone upi_id password,
    SignupBody.name body = Some name /\ name <> "" /\
    SignupBody.phone body = Some phone /\ phone <> "" /\
    SignupBody.upi_id body = Some upi_id /\ upi_id <> "" /\
    SignupBody.password body = Some password /\ password <> "" /\
    (forall i v, users db !! i = Some v ->
       User.name v <> name /\ User.phone v <> phone) /\
    bcrypt_hash password salt <> "" /\
    users db !! newId env = None /\
    let u := User.mk name phone upi_id (bcrypt_hash password salt) [] [] in
    b = USession (jwt_sign (newId env) env) (newId env) u /\
    db' = insert_user (newId env) u db.
Proof.
  unfold signup.
  destruct (truthy (SignupBody.name body)) as [n|] eqn:Hn; [|by intros H; inversion H].
  destruct (truthy (SignupBody.phone body)) as [ph|] eqn:Hph;
    [|by intros H; inversion H].
  destruct (truthy (SignupBody.upi_id body)) as [upi|] eqn:Hupi;
    [|by intros H; inversion H].
  destruct (truthy (SignupBody.password body)) as [pw|] eqn:Hpw;
    [|by intros H; inversion H].
  destruct (User_findOne _ db) as [x|] eqn:Hf; [by intros H; inversion H|].
  destruct (User_create _ _ _ _ _ _) as [ex|[[db1 id1] u1]] eqn:Hc;
    intros H; inversion H; subst; clear H.
  apply User_create_inv in Hc as (Hh & Hid & -> & -> & ->).
  apply truthy_Some in Hn as [? ?], Hph as [? ?], Hupi as [? ?], Hpw as [? ?].
  exists n, ph, upi, pw. repeat (split; [done|]). split.
  { intros i v Hv. rewrite User_findOne_None in Hf. specialize (Hf _ _ Hv).
    by apply same_name_or_phone_false in Hf. }
  repeat split; done.
Qed.

Lemma signup_ok body salt env db name phone upi_id password :
  SignupBody.name body = Some name -> name <> "" ->
  SignupBody.phone body = Some phone -> phone <> "" ->
  SignupBody.upi_id body = Some upi_id -> upi_id <> "" ->
  SignupBody.password body = Some password -> password <> "" ->
  (forall i v, users db !! i = Some v ->
     User.name v <> name /\ User.phone v <> phone) ->
  bcrypt_hash password salt <> "" ->
  users db !! newId env = None ->
  let u := User.mk name phone upi_id (bcrypt_hash password salt) [] [] in
  signup bcrypt_hash body salt env db
  = (insert_user (newId env) u db,
     (200, USession (jwt_sign (newId env) env) (newId env) u)).
Proof.
  intros Hn Hn' Hph Hph' Hupi Hupi' Hpw Hpw' Hfree Hh Hid u. unfold signup.
  rewrite (proj2 (truthy_Some _ name)), (proj2 (truthy_Some _ phone)),
          (proj2 (truthy_Some _ upi_id)), (proj2 (truthy_Some _ password)) by done.
  assert (User_findOne (same_name_or_phone name phone) db = None) as Hnone.
  { apply User_findOne_None. intros i v Hv.
    apply same_name_or_phone_false. eauto. }
  rewrite Hnone. by rewrite User_create_ok.
Qed.
Lemma signup_failure_keeps body salt env db db' status b :
  signup bcrypt_hash body salt env db = (db', (status, b)) ->
  status <> 200 -> db' = db.
Proof.
  intros Hs Hst. unfold signup in Hs.
  destruct (truthy (SignupBody.name body)); [|by inversion Hs].
  destruct (truthy (SignupBody.phone body)); [|by inversion Hs].
  destruct (truthy (SignupBody.upi_id body)); [|by inversion Hs].
  destruct (truthy (SignupBody.password body)); [|by inversion Hs].
  destruct (User_findOne _ db); [by inversion Hs|].
  destruct (User_create _ _ _ _ _ _) as [ex|[[db1 id1] u1]];
    inversion Hs; subst; done.
Qed.

(** X14: sign-up succeeds exactly when the four fields are present and not
    empty, no stored user has the same name or the same phone, the hash is
    not empty and the generated id is free; it then answers 200 with a token
    for the new id. *)
Theorem signup_succeeds_iff body salt env db :
  (exists db' b, signup bcrypt_hash body salt env db = (db', (200, b)))
  <->
  exists name phone upi_id password,
    SignupBody.name body = Some name /\ name <> "" /\
    SignupBody.phone body = Some phone /\ phone <> "" /\
    SignupBody.upi_id body = Some upi_id /\ upi_id <> "" /\
    SignupBody.password body = Some password /\ password <> "" /\
    (forall i v, users db !! i = Some v ->
       User.name v <> name /\ User.phone v <> phone) /\
    bcrypt_hash password salt <> "" /\
    users db !! newId env = None.
Proof.
  split.
  - intros (db' & b & Hs).
    apply signup_inv in Hs
      as (n & ph & upi & pw & ? & ? & ? & ? & ? & ? & ? & ? & ? & ? & ? & _).
    exists n, ph, upi, pw. repeat (split; [done|]). done.
  - intros (n & ph & upi & pw & ? & ? & ? & ? & ? & ? & ? & ? & ? & ? & ?).
    eexists _, _. by apply (signup_ok body salt env db n ph upi pw).
Qed.

(** X15: a sign-up that is not answered 200 writes nothing, and one that is
    writes one user document only: the new user, under an id that was free,
    with the fields of the request, the hash in place of the password and no
    friends or requests; stored users, groups and expenses are as before, and
    the token it answers, signed for the new id at the time of the request,
    names the new user to the middleware. *)
Theorem signup_frame body salt env db db' status b :
  signup bcrypt_hash body salt env db = (db', (status, b)) ->
  (status <> 200 -> db' = db) /\
  (status = 200 ->
   exists id u password,
     b = USession (jwt_sign id env) id u /\
     users db !! id = None /\ users db' !! id = Some u /\
     SignupBody.name body = Some (User.name u) /\
     SignupBody.phone body = Some (User.phone u) /\
     SignupBody.upi_id body = Some (User.upi_id u) /\
     SignupBody.password body = Some password /\
     User.password u = bcrypt_hash password salt /\
     User.friends u = [] /\ User.friendRequests u = [] /\
     (forall i, i <> id -> users db' !! i = users db !! i) /\
     groups db' = groups db /\ expenses db' = expenses db /\
     step db db' /\
     auth (bearer (jwt_sign id env)) db' = inr (Some (id, u))).
Proof.
  intros Hs. split.
  - by apply (signup_failure_keeps body salt env db db' status b).
  - intros ->.
    apply signup_inv in Hs
      as (n & ph & upi & pw & ? & ? & ? & ? & ? & ? & ? & ? & ? & ? & Hid & -> & ->).
    eexists _, _, pw. split; [done|]. simpl.
    split; [done|]. split; [apply lookup_insert_eq|].
    repeat (split; [done|]).
    split; [intros i Hi; by rewrite lookup_insert_ne|].
    split; [done|]. split; [done|].
    split; [apply (step_user_routes _ db)|].
    by rewrite lookup_insert_eq.
Qed.

Lemma signup_unique_step body salt env db :
  unique_users db -> unique_users (signup bcrypt_hash body salt env db).1.
Proof.
  intros Hu.
  destruct (signup bcrypt_hash body salt env db) as [db' [status b]] eqn:Hs.
  destruct (decide (status = 200)) as [->|Hne].
  - apply signup_inv in Hs
      as (n & ph & upi & pw & _ & _ & _ & _ & _ & _ & _ & _ & Hfree & _ & Hid & _ & ->).
    unfold unique_users. simpl. intros i j u v Hi Hj Hsame.
    destruct (decide (newId env = i)) as [<-|Hi'], (decide (newId env = j)) as [<-|Hj'];
      try done.
    + rewrite lookup_insert_eq in Hi. rewrite lookup_insert_ne in Hj by done.
      inversion Hi; subst u. simpl in Hsame.
      destruct (Hfree _ _ Hj) as [? ?]. destruct Hsame; congruence.
    + rewrite lookup_insert_eq in Hj. rewrite lookup_insert_ne in Hi by done.
      inversion Hj; subst v. simpl in Hsame.
      destruct (Hfree _ _ Hi) as [? ?]. destruct Hsame; congruence.
    + rewrite lookup_insert_ne in Hi, Hj by done. eauto.
  - simpl. by rewrite (signup_failure_keeps body salt env db db' status b Hs Hne).
Qed.
(** X16: sign-up keeps names and phones unique: if no two stored users share
    a name or a phone, the same holds after any sequence of sign-up requests,
    accepted or refused. *)
Theorem signups_keep_users_unique (reqs : list (SignupBody.t * string * Env)) db :
  unique_users db ->
  unique_users
    (foldl (fun d r => (signup bcrypt_hash r.1.1 r.1.2 r.2 d).1) db reqs).
Proof.
  revert db. induction reqs as [|[[body salt] env] reqs IH]; intros db Hu; [done|].
  simpl. apply IH. by apply signup_unique_step.
Qed.


(** X18: login answers 200 only for a stored user whom the identifier names
    (by name or by phone) and whose stored hash [compare] accepts for the
    given password, with a token signed for that user's id; and it answers
    "User not found" exactly when the identifier names no stored user. The
    store is only read. *)
Theorem login_sound body env db :
  (forall tok id u,
     login bcrypt_compare body env db = (200, USession tok id u) ->
     tok = jwt_sign id env /\ users db !! id = Some u /\
     identified_by (LoginBody.identifier body) u = true /\
     bcrypt_compare (LoginBody.password body) (User.password u) = true) /\
  (login bcrypt_compare body env db = (400, UError "User not found")
   <-> forall i v, users db !! i = Some v ->
         identified_by (LoginBody.identifier body) v = false).
Proof.
  unfold login. split.
  - intros tok id u.
    destruct (User_findOne _ db) as [[id' u']|] eqn:Hf; [|discriminate].
    destruct (bcrypt_compare _ _) eqn:Hc; [|discriminate].
    intros H. inversion H; subst.
    apply User_findOne_Some in Hf as [? ?]. done.
  - rewrite <- User_findOne_None.
    destruct (User_findOne _ db) as [[id' u']|] eqn:Hf; [|done].
    destruct (bcrypt_compare _ _); split; discriminate.
Qed.
End AccountFacts.

Lemma signup_succeeds_iff_witness :
  exists db' b,
    signup Bcrypt.hash Newcomer.body "salt" Scenario.env1 Newcomer.empty
    = (db', (200, b)).
Proof.
  apply (proj2 (signup_succeeds_iff Bcrypt.hash Newcomer.body "salt"
                  Scenario.env1 Newcomer.empty)).
  exists "dave", "555", "dave@upi", "secret".
  do 8 (split; [done|]). split; [|done].
  intros i v Hv. simpl in Hv. by rewrite lookup_empty in Hv.
Defined.

Lemma signup_frame_witness :
  exists id u password,
    USession (Token.mk 20 2) 20 Newcomer.dave
      = USession (jwt_sign id Scenario.env1) id u /\
    users Newcomer.empty !! id = None /\ users Newcomer.db1 !! id = Some u /\
    SignupBody.name Newcomer.body = Some (User.name u) /\
    SignupBody.phone Newcomer.body = Some (User.phone u) /\
    SignupBody.upi_id Newcomer.body = Some (User.upi_id u) /\
    SignupBody.password Newcomer.body = Some password /\
    User.password u = Bcrypt.hash password "salt" /\
    User.friends u = [] /\ User.friendRequests u = [] /\
    (forall i, i <> id -> users Newcomer.db1 !! i = users Newcomer.empty !! i) /\
    groups Newcomer.db1 = groups Newcomer.empty /\
    expenses Newcomer.db1 = expenses Newcomer.empty /\
    step Newcomer.empty Newcomer.db1 /\
    auth (bearer (jwt_sign id Scenario.env1)) Newcomer.db1 = inr (Some (id, u)).
Proof.
  exact (proj2 (signup_frame Bcrypt.hash Newcomer.body "salt" Scenario.env1
                  Newcomer.empty Newcomer.db1 200
                  (USession (Token.mk 20 2) 20 Newcomer.dave) eq_refl) eq_refl).
Defined.

Lemma signups_keep_users_unique_witness :
  unique_users
    (foldl (fun d r => (signup Bcrypt.hash r.1.1 r.1.2 r.2 d).1) Newcomer.empty
       [(Newcomer.body, "salt", Scenario.env1);
        (Newcomer.body, "pepper", Scenario.env2)]).
Proof.
  apply (signups_keep_users_unique Bcrypt.hash).
  intros i j u v Hu. simpl in Hu. by rewrite lookup_empty in Hu.
Defined.


Lemma login_sound_witness :
  login Bcrypt.compare (LoginBody.mk "erin" "secret") Scenario.env3 Newcomer.db1
  = (400, UError "User not found")
  <-> forall i v, users Newcomer.db1 !! i = Some v -> identified_by "erin" v = false.
Proof.
  exact (proj2 (login_sound Bcrypt.compare (LoginBody.mk "erin" "secret")
                  Scenario.env3 Newcomer.db1)).
Defined.


